(** * GeographicLib::TransverseMercator (Krueger series) in Rocq

    A shallow embedding of [src/TransverseMercator.cpp]: the constructor
    (validation and generation of the series coefficients), [Forward] and
    [Reverse].

    Reading of the arithmetic type.  [Math::real] is read as the field of real
    numbers [R]: every operation is exact, there is no rounding, no NaN, no
    infinity and no negative zero.  IEEE special values are kept in two
    places: the validation done by the constructor, which receives its
    three numbers as binary64 values ([spec_float]) and tests them with
    [isfinite] and with IEEE comparisons before their real values are used;
    and [Forward_z], which takes the sign bits of a zero latitude and of a
    zero longitude difference beside their real values.

    What is not in [src/]: [Math.hpp] (the [Math::] helpers), the header of
    the class and [TransverseMercatorExact].  The helpers whose meaning over
    the reals is fixed by their description are defined here; the others are
    fields of the record [MathLib]; the exact engine is the record
    [ExactEngine].  Both are parameters of the model. *)

From Stdlib Require Import Reals ZArith List Bool String Lra Lia Psatz.
From Stdlib Require Import Floats.SpecFloat.
Import ListNotations.

Local Open Scope R_scope.

(* ================================================================== *)
(** * Part I: definitions                                              *)
(* ================================================================== *)

(** ** [std::complex<real>] *)

Record complex : Type := mkC { re : R; im : R }.

Declare Scope C_scope.
Delimit Scope C_scope with C.
Bind Scope C_scope with complex.

(** [complex<real>(x)], the converting constructor. *)
Definition RtoC (x : R) : complex := mkC x 0.

Definition C0 : complex := RtoC 0.
Definition C1 : complex := RtoC 1.

Definition Cadd (u v : complex) : complex :=
  mkC (re u + re v) (im u + im v).

Definition Copp (u : complex) : complex := mkC (- re u) (- im u).

Definition Csub (u v : complex) : complex :=
  mkC (re u - re v) (im u - im v).

Definition Cmul (u v : complex) : complex :=
  mkC (re u * re v - im u * im v) (re u * im v + im u * re v).

(** [z + x], [z - x], [x - z] and [z / x] with [x] a [real]. *)
Definition Cadd_real (u : complex) (x : R) : complex := mkC (re u + x) (im u).
Definition Csub_real (u : complex) (x : R) : complex := mkC (re u - x) (im u).
Definition real_Csub (x : R) (u : complex) : complex := mkC (x - re u) (- im u).
Definition Cdiv_real (u : complex) (x : R) : complex := mkC (re u / x) (im u / x).

(** [std::abs(z)]. *)
Definition Cabs (u : complex) : R := sqrt (re u * re u + im u * im u).

Infix "+" := Cadd : C_scope.
Infix "-" := Csub : C_scope.
Infix "*" := Cmul : C_scope.
Notation "- u" := (Copp u) : C_scope.

(** Sine and cosine of a complex argument, the functions the comments of the
    source call [sin(2*zeta')] and [cos(2*zeta')]. *)
Definition Csin (u : complex) : complex :=
  mkC (sin (re u) * cosh (im u)) (cos (re u) * sinh (im u)).

Definition Ccos (u : complex) : complex :=
  mkC (cos (re u) * cosh (im u)) (- (sin (re u) * sinh (im u))).

(** [x * z] for a real [x]. *)
Definition Cscale (x : R) (u : complex) : complex := mkC (x * re u) (x * im u).

(** [sum f N] is f(1) + ... + f(N). *)
Fixpoint Csum (f : nat -> complex) (N : nat) : complex :=
  match N with
  | O => C0
  | S N' => Cadd (Csum f N') (f (S N'))
  end.

(** ** The functions of [<cmath>] over the reals *)

Definition signbit (x : R) : bool := if Rlt_dec x 0 then true else false.

Definition Rgtb (x y : R) : bool := if Rgt_dec x y then true else false.

Definition Reqb (x y : R) : bool := if Req_dec_T x y then true else false.

Definition hypot (x y : R) : R := sqrt (x * x + y * y).

Definition asinh (x : R) : R := arcsinh x.

Definition fabs (x : R) : R := Rabs x.

Definition fmax (x y : R) : R := Rmax x y.

(** [std::atan2(y, x)], with values in (-pi, pi]. *)
Definition atan2 (y x : R) : R :=
  if Rlt_dec 0 x then atan (y / x)
  else if Rlt_dec x 0 then
         (if Rle_dec 0 y then atan (y / x) + PI else atan (y / x) - PI)
       else if Rlt_dec 0 y then PI / 2
            else if Rlt_dec y 0 then - (PI / 2) else 0.

(** ** The [Math::] helpers that their description fixes over the reals *)

(** Modelled from the spec: the constants [Math::qd], [Math::hd] and
    [Math::td] of [Math.hpp] (not under [src/]): the degrees in a quarter
    turn, a half turn and a whole turn. *)
Definition qd : R := 90.
Definition hd : R := 180.
Definition td : R := 360.

(** Modelled from the spec: [Math::sq] (written [Math::_sq] in this source),
    the square. *)
Definition sq (x : R) : R := x * x.

(** Modelled from the spec: [Math::polyval] of [Math.hpp] (not under
    [src/]), "Horner polynomial evaluation" of a polynomial of degree [N]
    whose coefficients [p] are stored leading coefficient first, as the
    comments of the coefficient tables of the source say. *)
Definition polyval (N : Z) (p : list R) (x : R) : R :=
  if (N <? 0)%Z then 0
  else match p with
       | [] => 0
       | p0 :: p' => fold_left (fun y c => y * x + c) (firstn (Z.to_nat N) p') p0
       end.

(** Modelled from the spec: [Math::sincosd] of [Math.hpp] (not under
    [src/]), the "degree-based sine/cosine pair". *)
Definition sincosd (x : R) : R * R := (sin (x * (PI / 180)), cos (x * (PI / 180))).

(** Modelled from the spec: [Math::atan2d] and [Math::atand] of [Math.hpp]
    (not under [src/]), "atan2/atan in degrees". *)
Definition atan2d (y x : R) : R := atan2 y x * (180 / PI).
Definition atand (x : R) : R := atan x * (180 / PI).

(** ** The other [Math::] helpers: parameters of the model *)

(** [Math.hpp] is not under [src/].  The helpers below are taken as
    parameters; every theorem names the properties of them it relies on. *)
Record MathLib : Type := {
  LatFix : R -> R;
  AngDiff : R -> R -> R;
  AngNormalize : R -> R;
  eatanhe : R -> R -> R;
  taupf : R -> R -> R;
  tauf : R -> R -> R
}.

(** ** Errors *)

Inductive GeographicErr : Type :=
| GeographicErr_msg (msg : string).

(** ** The exact engine: a parameter of the model *)

(** [TransverseMercatorExact] is not under [src/].  Its constructor may
    throw; [TMExact_default] is its default constructor. *)
Record ExactEngine : Type := {
  TMExact : Type;
  TMExact_new : spec_float -> spec_float -> spec_float -> bool ->
                GeographicErr + TMExact;
  TMExact_default : TMExact;
  TMExact_Forward : TMExact -> R -> R -> R -> R * R * R * R;
  TMExact_Reverse : TMExact -> R -> R -> R -> R * R * R * R
}.

(** ** binary64 values handed to the constructor *)

Definition isfinite (x : spec_float) : bool :=
  match x with
  | S754_zero _ | S754_finite _ _ _ => true
  | S754_infinity _ | S754_nan => false
  end.

(** The literals [0] and [1] converted to binary64. *)
Definition SF_zero : spec_float := S754_zero false.
Definition SF_one : spec_float := S754_finite false 4503599627370496 (-52).

(** The real number a finite binary64 value stands for.  An infinity or a
    NaN stands for no real number; the model holds 0 for it, and the value is
    never used: without the exact engine the constructor throws on such an
    argument, and with it no function of the class reads a member other
    than [_exact] and [_tmexact]. *)
Definition SF2R (x : spec_float) : R :=
  match x with
  | S754_finite s m e =>
      (if s then - IZR (Zpos m) else IZR (Zpos m)) * powerRZ 2 e
  | _ => 0
  end.

(** ** The order of the series *)

(** [GEOGRAPHICLIB_TRANSVERSEMERCATOR_ORDER] is a preprocessor constant; any
    value outside 4..8 is a compile-time [#error]. *)
Inductive Order : Type := Order4 | Order5 | Order6 | Order7 | Order8.

Definition GEOGRAPHICLIB_TRANSVERSEMERCATOR_ORDER (o : Order) : Z :=
  match o with
  | Order4 => 4 | Order5 => 5 | Order6 => 6 | Order7 => 7 | Order8 => 8
  end%Z.

Definition maxpow_ (o : Order) : Z := GEOGRAPHICLIB_TRANSVERSEMERCATOR_ORDER o.

(** ** The coefficient tables (generated by Maxima, copied from the source) *)

Definition b1coeff (o : Order) : list R :=
  match Z.quot (GEOGRAPHICLIB_TRANSVERSEMERCATOR_ORDER o) 2 with
  | 2%Z => [1; 16; 64; 64]
  | 3%Z => [1; 4; 64; 256; 256]
  | 4%Z => [25; 64; 256; 4096; 16384; 16384]
  | _ => []
  end.

Definition alpcoeff (o : Order) : list R :=
  match o with
  | Order4 =>
      [164; 225; -480; 360; 720;
       557; -864; 390; 1440;
       -1236; 427; 1680;
       49561; 161280]
  | Order5 =>
      [-635; 328; 450; -960; 720; 1440;
       4496; 3899; -6048; 2730; 10080;
       15061; -19776; 6832; 26880;
       -171840; 49561; 161280;
       34729; 80640]
  | Order6 =>
      [31564; -66675; 34440; 47250; -100800; 75600; 151200;
       -1983433; 863232; 748608; -1161216; 524160; 1935360;
       670412; 406647; -533952; 184464; 725760;
       6601661; -7732800; 2230245; 7257600;
       -13675556; 3438171; 7983360;
       212378941; 319334400]
  | Order7 =>
      [1804025; 2020096; -4267200; 2204160; 3024000; -6451200; 4838400; 9676800;
       4626384; -9917165; 4316160; 3743040; -5806080; 2620800; 9676800;
       -67102379; 26816480; 16265880; -21358080; 7378560; 29030400;
       155912000; 72618271; -85060800; 24532695; 79833600;
       102508609; -109404448; 27505368; 63866880;
       -12282192400; 2760926233; 4151347200;
       1522256789; 1383782400]
  | Order8 =>
      [-75900428; 37884525; 42422016; -89611200; 46287360; 63504000; -135475200;
       101606400; 203212800;
       148003883; 83274912; -178508970; 77690880; 67374720; -104509440;
       47174400; 174182400;
       318729724; -738126169; 294981280; 178924680; -234938880; 81164160;
       319334400;
       -40176129013; 14967552000; 6971354016; -8165836800; 2355138720;
       7664025600;
       10421654396; 3997835751; -4266773472; 1072709352; 2490808320;
       175214326799; -171950693600; 38652967262; 58118860800;
       -67039739596; 13700311101; 12454041600;
       1424729850961; 743921418240]
  end.

Definition betcoeff (o : Order) : list R :=
  match o with
  | Order4 =>
      [-4; 555; -960; 720; 1440;
       -437; 96; 30; 1440;
       -148; 119; 3360;
       4397; 161280]
  | Order5 =>
      [-3645; -64; 8880; -15360; 11520; 23040;
       4416; -3059; 672; 210; 10080;
       -627; -592; 476; 13440;
       -3520; 4397; 161280;
       4583; 161280]
  | Order6 =>
      [384796; -382725; -6720; 932400; -1612800; 1209600; 2419200;
       -1118711; 1695744; -1174656; 258048; 80640; 3870720;
       22276; -16929; -15984; 12852; 362880;
       -830251; -158400; 197865; 7257600;
       -435388; 453717; 15966720;
       20648693; 638668800]
  | Order7 =>
      [-5406467; 6156736; -6123600; -107520; 14918400; -25804800; 19353600;
       38707200;
       829456; -5593555; 8478720; -5873280; 1290240; 403200; 19353600;
       9261899; 3564160; -2708640; -2557440; 2056320; 58060800;
       14928352; -9132761; -1742400; 2176515; 79833600;
       -8005831; -1741552; 1814868; 63866880;
       -261810608; 268433009; 8302694400;
       219941297; 5535129600]
  | Order8 =>
      [31777436; -37845269; 43097152; -42865200; -752640; 104428800; -180633600;
       135475200; 270950400;
       24749483; 14930208; -100683990; 152616960; -105719040; 23224320; 7257600;
       348364800;
       -232468668; 101880889; 39205760; -29795040; -28131840; 22619520;
       638668800;
       324154477; 1433121792; -876745056; -167270400; 208945440; 7664025600;
       457888660; -312227409; -67920528; 70779852; 2490808320;
       -19841813847; -3665348512; 3758062126; 116237721600;
       -1989295244; 1979471673; 49816166400;
       191773887257; 3719607091200]
  end.

(** ** Arrays *)

(** [arr[i]] for an [int] index; the source never indexes out of range. *)
Definition at_ (arr : list R) (i : Z) : R := nth (Z.to_nat i) arr 0.

(** [arr[i] = v]. *)
Fixpoint store_nat (arr : list R) (i : nat) (v : R) : list R :=
  match arr, i with
  | [], _ => []
  | _ :: t, O => v :: t
  | h :: t, S i' => h :: store_nat t i' v
  end.

Definition store (arr : list R) (i : Z) (v : R) : list R :=
  store_nat arr (Z.to_nat i) v.

(** [p + o] for a pointer [p] into a table. *)
Definition offset (p : list R) (o : Z) : list R := skipn (Z.to_nat o) p.

(** ** The class *)

Section Model.

Variable M : MathLib.
Variable X : ExactEngine.
Variable ord : Order.

(** The data members.  [_a1], [_b1], [_alp] and [_bet] are assigned in the
    body of the constructor only; where the source leaves them unassigned
    (the exact engine is used) the model holds 0 in them, and no function of
    the class reads them there.  [_alp] and [_bet] have [maxpow_ + 1] slots;
    slot 0 is never assigned and never read. *)
Record TransverseMercator : Type := {
  _a : R;
  _f : R;
  _k0 : R;
  _exact : bool;
  _e2 : R;
  _es : R;
  _e2m : R;
  _c : R;
  _n : R;
  _a1 : R;
  _b1 : R;
  _alp : list R;
  _bet : list R;
  _tmexact : TMExact X
}.

(** The member initialisers, over the real values of the arguments. *)
Definition initialise (a f k0 : R) (exact : bool) (tmexact : TMExact X)
  : TransverseMercator :=
  let e2 := f * (2 - f) in
  let es := (if Rlt_dec f 0 then -1 else 1) * sqrt (fabs e2) in
  let e2m := 1 - e2 in
  {| _a := a; _f := f; _k0 := k0; _exact := exact;
     _e2 := e2; _es := es; _e2m := e2m;
     _c := sqrt e2m * exp (eatanhe M 1 es);
     _n := f / (2 - f);
     _a1 := 0; _b1 := 0;
     _alp := repeat 0 (Z.to_nat (maxpow_ ord + 1));
     _bet := repeat 0 (Z.to_nat (maxpow_ ord + 1));
     _tmexact := tmexact |}.

(** One turn of [for (int l = 1; l <= maxpow_; ++l)]; the state is
    [(o, d, _alp, _bet)]. *)
Definition coeff_step (n : R) (st : Z * R * list R * list R) (l : Z)
  : Z * R * list R * list R :=
  let '(o, d, alp, bet) := st in
  let m := (maxpow_ ord - l)%Z in
  let alp := store alp l (d * polyval m (offset (alpcoeff ord) o) n
                          / at_ (alpcoeff ord) (o + m + 1)) in
  let bet := store bet l (d * polyval m (offset (betcoeff ord) o) n
                          / at_ (betcoeff ord) (o + m + 1)) in
  ((o + m + 2)%Z, d * n, alp, bet).

(** The part of the body of the constructor after the validation. *)
Definition generate (tm : TransverseMercator) : TransverseMercator :=
  let m := Z.quot (maxpow_ ord) 2 in
  let b1 := polyval m (b1coeff ord) (sq (_n tm))
            / (at_ (b1coeff ord) (m + 1) * (1 + _n tm)) in
  let a1 := b1 * _a tm in
  let '(_, _, alp, bet) :=
    fold_left (coeff_step (_n tm))
              (map Z.of_nat (seq 1 (Z.to_nat (maxpow_ ord))))
              (0%Z, _n tm, _alp tm, _bet tm) in
  {| _a := _a tm; _f := _f tm; _k0 := _k0 tm; _exact := _exact tm;
     _e2 := _e2 tm; _es := _es tm; _e2m := _e2m tm; _c := _c tm;
     _n := _n tm;
     _a1 := a1; _b1 := b1; _alp := alp; _bet := bet;
     _tmexact := _tmexact tm |}.

(** The engine the constructor builds when it does not use the exact
    engine and the validation passes. *)
Definition series_engine (a f k0 : R) : TransverseMercator :=
  generate (initialise a f k0 false (TMExact_default X)).

(** [TransverseMercator::TransverseMercator(a, f, k0, exact, extendp)].
    [inl e] is a thrown [GeographicErr]. *)
Definition TransverseMercator_new (a f k0 : spec_float) (exact extendp : bool)
  : GeographicErr + TransverseMercator :=
  match (if exact then TMExact_new X a f k0 extendp
         else inr (TMExact_default X)) with
  | inl e => inl e
  | inr tmexact =>
      let tm := initialise (SF2R a) (SF2R f) (SF2R k0) exact tmexact in
      if exact then inr tm
      else if negb (isfinite a && SFltb SF_zero a) then
        inl (GeographicErr_msg "Equatorial radius is not positive")
      else if negb (isfinite f && SFltb f SF_one) then
        inl (GeographicErr_msg "Polar semi-axis is not positive")
      else if negb (isfinite k0 && SFltb SF_zero k0) then
        inl (GeographicErr_msg "Scale is not positive")
      else if extendp then
        inl (GeographicErr_msg "TransverseMercator extendp not allowed if !exact")
      else inr (generate tm)
  end.

(** ** The Clenshaw loops *)

(** [while (n) { ... }] of [Forward]; the state is [(y0, y1, z0, z1)] and
    the counter [n].  [None]: the fuel ran out. *)
Fixpoint Forward_while (fuel : nat) (alp : list R) (a : complex) (n : Z)
  (y0 y1 z0 z1 : complex) : option (complex * complex * complex * complex) :=
  if (n =? 0)%Z then Some (y0, y1, z0, z1)
  else match fuel with
       | O => None
       | S fuel' =>
           let y1 := Cadd_real (a * y0 - y1)%C (at_ alp n) in
           let z1 := Cadd_real (a * z0 - z1)%C (IZR (2 * n) * at_ alp n) in
           let n := (n - 1)%Z in
           let y0 := Cadd_real (a * y1 - y0)%C (at_ alp n) in
           let z0 := Cadd_real (a * z1 - z0)%C (IZR (2 * n) * at_ alp n) in
           let n := (n - 1)%Z in
           Forward_while fuel' alp a n y0 y1 z0 z1
       end.

(** The same loop in [Reverse], which subtracts [_bet[n]]. *)
Fixpoint Reverse_while (fuel : nat) (bet : list R) (a : complex) (n : Z)
  (y0 y1 z0 z1 : complex) : option (complex * complex * complex * complex) :=
  if (n =? 0)%Z then Some (y0, y1, z0, z1)
  else match fuel with
       | O => None
       | S fuel' =>
           let y1 := Csub_real (a * y0 - y1)%C (at_ bet n) in
           let z1 := Csub_real (a * z0 - z1)%C (IZR (2 * n) * at_ bet n) in
           let n := (n - 1)%Z in
           let y0 := Csub_real (a * y1 - y0)%C (at_ bet n) in
           let z0 := Csub_real (a * z1 - z0)%C (IZR (2 * n) * at_ bet n) in
           let n := (n - 1)%Z in
           Reverse_while fuel' bet a n y0 y1 z0 z1
       end.

(** [n & 1]. *)
Definition is_odd (n : Z) : bool := negb (Z.land n 1 =? 0)%Z.

(** The fuel given to the loops: one unit per turn is needed, a turn
    lowers [n] by two. *)
Definition while_fuel : nat := Z.to_nat (maxpow_ ord).

(** The series evaluation of [Forward], from the declaration of [c0] to
    the assignment of [y1]: the result is the final [(y1, z1)]. *)
Definition Forward_series (alp : list R) (xip etap : R)
  : option (complex * complex) :=
  let c0 := cos (2 * xip) in
  let ch0 := cosh (2 * etap) in
  let s0 := sin (2 * xip) in
  let sh0 := sinh (2 * etap) in
  let a := mkC (2 * c0 * ch0) (-2 * s0 * sh0) in
  let n := maxpow_ ord in
  let y0 := RtoC (if is_odd n then at_ alp n else 0) in
  let y1 := C0 in
  let z0 := RtoC (if is_odd n then IZR (2 * n) * at_ alp n else 0) in
  let z1 := C0 in
  let n := if is_odd n then (n - 1)%Z else n in
  match Forward_while while_fuel alp a n y0 y1 z0 z1 with
  | None => None
  | Some (y0, y1, z0, z1) =>
      let a := Cdiv_real a 2 in
      let z1 := (real_Csub 1 z1 + a * z0)%C in
      let a := mkC (s0 * ch0) (c0 * sh0) in
      let y1 := (mkC xip etap + a * y0)%C in
      Some (y1, z1)
  end.

(** The series evaluation of [Reverse]. *)
Definition Reverse_series (bet : list R) (xi eta : R)
  : option (complex * complex) :=
  let c0 := cos (2 * xi) in
  let ch0 := cosh (2 * eta) in
  let s0 := sin (2 * xi) in
  let sh0 := sinh (2 * eta) in
  let a := mkC (2 * c0 * ch0) (-2 * s0 * sh0) in
  let n := maxpow_ ord in
  let y0 := RtoC (if is_odd n then - at_ bet n else 0) in
  let y1 := C0 in
  let z0 := RtoC (if is_odd n then IZR (-2 * n) * at_ bet n else 0) in
  let z1 := C0 in
  let n := if is_odd n then (n - 1)%Z else n in
  match Reverse_while while_fuel bet a n y0 y1 z0 z1 with
  | None => None
  | Some (y0, y1, z0, z1) =>
      let a := Cdiv_real a 2 in
      let z1 := (real_Csub 1 z1 + a * z0)%C in
      let a := mkC (s0 * ch0) (c0 * sh0) in
      let y1 := (mkC xi eta + a * y0)%C in
      Some (y1, z1)
  end.

(** ** [Forward] *)

(** [TransverseMercator::Forward(lon0, lat, lon, x, y, gamma, k)]; the
    result is [(x, y, gamma, k)]. *)
Definition Forward (tm : TransverseMercator) (lon0 lat lon : R)
  : option (R * R * R * R) :=
  if _exact tm then Some (TMExact_Forward X (_tmexact tm) lon0 lat lon)
  else
    let lat := LatFix M lat in
    let lon := AngDiff M lon0 lon in
    let latsign := if signbit lat then (-1)%Z else 1%Z in
    let lonsign := if signbit lon then (-1)%Z else 1%Z in
    let lon := lon * IZR lonsign in
    let lat := lat * IZR latsign in
    let backside := Rgtb lon qd in
    let latsign := if backside then (if Reqb lat 0 then (-1)%Z else latsign)
                   else latsign in
    let lon := if backside then hd - lon else lon in
    let '(sphi, cphi) := sincosd lat in
    let '(slam, clam) := sincosd lon in
    let '(xip, etap, gamma, k) :=
      if negb (Reqb lat qd) then
        let tau := sphi / cphi in
        let taup := taupf M tau (_es tm) in
        (atan2 taup clam,
         asinh (slam / hypot taup clam),
         atan2d (slam * taup) (clam * hypot 1 taup),
         sqrt (_e2m tm + _e2 tm * sq cphi) * hypot 1 tau / hypot taup clam)
      else (PI / 2, 0, lon, _c tm) in
    match Forward_series (_alp tm) xip etap with
    | None => None
    | Some (y1, z1) =>
        let gamma := gamma - atan2d (im z1) (re z1) in
        let k := k * (_b1 tm * Cabs z1) in
        let xi := re y1 in
        let eta := im y1 in
        let y := _a1 tm * _k0 tm * (if backside then PI - xi else xi)
                 * IZR latsign in
        let x := _a1 tm * _k0 tm * eta * IZR lonsign in
        let gamma := if backside then hd - gamma else gamma in
        let gamma := gamma * IZR (latsign * lonsign) in
        let gamma := AngNormalize M gamma in
        let k := k * _k0 tm in
        Some (x, y, gamma, k)
    end.

(** ** [Reverse] *)

(** [TransverseMercator::Reverse(lon0, x, y, lat, lon, gamma, k)]; the
    result is [(lat, lon, gamma, k)]. *)
Definition Reverse (tm : TransverseMercator) (lon0 x y : R)
  : option (R * R * R * R) :=
  if _exact tm then Some (TMExact_Reverse X (_tmexact tm) lon0 x y)
  else
    let xi := y / (_a1 tm * _k0 tm) in
    let eta := x / (_a1 tm * _k0 tm) in
    let xisign := if signbit xi then (-1)%Z else 1%Z in
    let etasign := if signbit eta then (-1)%Z else 1%Z in
    let xi := xi * IZR xisign in
    let eta := eta * IZR etasign in
    let backside := Rgtb xi (PI / 2) in
    let xi := if backside then PI - xi else xi in
    match Reverse_series (_bet tm) xi eta with
    | None => None
    | Some (y1, z1) =>
        let gamma := atan2d (im z1) (re z1) in
        let k := _b1 tm / Cabs z1 in
        let xip := re y1 in
        let etap := im y1 in
        let s := sinh etap in
        let c := fmax 0 (cos xip) in
        let r := hypot s c in
        let '(lat, lon, gamma, k) :=
          if negb (Reqb r 0) then
            let lon := atan2d s c in
            let sxip := sin xip in
            let tau := tauf M (sxip / r) (_es tm) in
            let gamma := gamma + atan2d (sxip * tanh etap) c in
            let lat := atand tau in
            let k := k * (sqrt (_e2m tm + _e2 tm / (1 + sq tau))
                          * hypot 1 tau * r) in
            (lat, lon, gamma, k)
          else (qd, 0, gamma, k * _c tm) in
        let lat := lat * IZR xisign in
        let lon := if backside then hd - lon else lon in
        let lon := lon * IZR etasign in
        let lon := AngNormalize M (lon + lon0) in
        let gamma := if backside then hd - gamma else gamma in
        let gamma := gamma * IZR (xisign * etasign) in
        let gamma := AngNormalize M gamma in
        let k := k * _k0 tm in
        Some (lat, lon, gamma, k)
    end.

End Model.

(** [Rsum f N] is f(1) + ... + f(N), over the reals. *)
Fixpoint Rsum (f : nat -> R) (N : nat) : R :=
  match N with
  | O => 0
  | S N' => Rsum f N' + f (S N')
  end.

(** ** The series the Clenshaw loops are meant to sum *)

(** The truncated series as the specification writes it, for a coefficient
    sequence [coeff], an order [N] and a complex argument [zeta]:
    zeta + sum_{j=1..N} coeff[j] sin(2 j zeta). *)
Definition spec_series_sum (coeff : nat -> R) (N : nat) (zeta : complex)
  : complex :=
  Cadd zeta
       (Csum (fun j => Cscale (coeff j) (Csin (Cscale (2 * INR j) zeta))) N).

(** Its derivative: 1 + sum_{j=1..N} 2 j coeff[j] cos(2 j zeta). *)
Definition spec_series_derivative (coeff : nat -> R) (N : nat) (zeta : complex)
  : complex :=
  Cadd C1
       (Csum (fun j => Cscale (2 * INR j * coeff j)
                              (Ccos (Cscale (2 * INR j) zeta))) N).

(** The values the derivative series takes where [Forward] is examined
    below: at zeta' = pi/2 (the pole), at zeta' = 0 (the origin) and at
    zeta' = i etap (the equator). *)
Definition derivative_at_pole (coeff : nat -> R) (N : nat) : R :=
  1 + Rsum (fun j => 2 * INR j * coeff j * (-1) ^ j) N.

Definition derivative_at_origin (coeff : nat -> R) (N : nat) : R :=
  1 + Rsum (fun j => 2 * INR j * coeff j) N.

Definition derivative_on_equator (coeff : nat -> R) (N : nat) (etap : R) : R :=
  1 + Rsum (fun j => 2 * INR j * coeff j * cosh (2 * INR j * etap)) N.

(** The coefficient sequences handed to the two loops: [_alp[j]] in
    [Forward], [-_bet[j]] in [Reverse]. *)
Definition coeff_of (arr : list R) (j : nat) : R := at_ arr (Z.of_nat j).
Definition neg_coeff_of (arr : list R) (j : nat) : R := - at_ arr (Z.of_nat j).

(** The recurrence common to the two loops, for a coefficient sequence
    [c] indexed like the arrays: b[k] = a b[k+1] - b[k+2] + c[k], two steps
    per turn, for the sum and for the derivative. *)
Fixpoint clenshaw_while (fuel : nat) (c : Z -> R) (a : complex) (n : Z)
  (y0 y1 z0 z1 : complex) : option (complex * complex * complex * complex) :=
  if (n =? 0)%Z then Some (y0, y1, z0, z1)
  else match fuel with
       | O => None
       | S fuel' =>
           let y1 := (a * y0 - y1 + RtoC (c n))%C in
           let z1 := (a * z0 - z1 + RtoC (IZR (2 * n) * c n))%C in
           let n := (n - 1)%Z in
           let y0 := (a * y1 - y0 + RtoC (c n))%C in
           let z0 := (a * z1 - z0 + RtoC (IZR (2 * n) * c n))%C in
           let n := (n - 1)%Z in
           clenshaw_while fuel' c a n y0 y1 z0 z1
       end.

(** ** A reference instance of the parameters *)

(** Modelled from the spec: [Math::LatFix] of [Math.hpp] (not under
    [src/]), "latitude clamping to [-90,90]". *)
Definition ref_LatFix (x : R) : R := Rmax (- qd) (Rmin qd x).

(** Modelled from the spec: [Math::AngNormalize] of [Math.hpp] (not under
    [src/]), "angle-normalization (wrapping to canonical ranges, handling
    +-180 boundaries)": the angle is reduced by whole turns to [-180, 180],
    and a result on the boundary keeps the sign of the argument. *)
Definition ref_AngNormalize (x : R) : R :=
  let y := x - td * IZR (Zfloor ((x + hd) / td)) in
  if Reqb y (- hd) then (if Rlt_dec 0 x then hd else y) else y.

(** Modelled from the spec: [Math::AngDiff] of [Math.hpp] (not under
    [src/]), the "angle-difference" [y - x], normalized. *)
Definition ref_AngDiff (x y : R) : R := ref_AngNormalize (y - x).

(** The inverse hyperbolic tangent. *)
Definition atanh (x : R) : R := ln ((1 + x) / (1 - x)) / 2.

(** Modelled from the spec: [Math::eatanhe] of [Math.hpp] (not under
    [src/]): e atanh(e x), continued to negative [es] (prolate ellipsoids)
    with the arc tangent. *)
Definition ref_eatanhe (x es : R) : R :=
  if Rlt_dec 0 es then es * atanh (es * x) else - es * atan (es * x).

(** Modelled from the spec: [Math::taupf] of [Math.hpp] (not under [src/]),
    the "conformal-latitude forward mapping (closed-form)" from the tangent
    of the latitude to the tangent of the conformal latitude. *)
Definition ref_taupf (tau es : R) : R :=
  let tau1 := hypot 1 tau in
  let sig := sinh (ref_eatanhe (tau / tau1) es) in
  hypot 1 sig * tau - sig * tau1.

(** Modelled from the spec: [Math::tauf] of [Math.hpp] (not under [src/]),
    the "inverse mapping (Newton iteration)": five Newton steps on
    [ref_taupf], started at [taup / (1 - es^2)]. *)
Definition ref_tauf_step (taup es e2m tau : R) : R :=
  let taupa := ref_taupf tau es in
  tau + (taup - taupa) * (1 + e2m * sq tau)
        / (e2m * hypot 1 tau * hypot 1 taupa).

Definition ref_tauf (taup es : R) : R :=
  let e2m := 1 - sq es in
  Nat.iter 5 (ref_tauf_step taup es e2m) (taup / e2m).

Definition RefMath : MathLib :=
  {| LatFix := ref_LatFix;
     AngDiff := ref_AngDiff;
     AngNormalize := ref_AngNormalize;
     eatanhe := ref_eatanhe;
     taupf := ref_taupf;
     tauf := ref_tauf |}.

(** The properties of the external helpers the proofs about [Forward]
    rely on: [LatFix] leaves a latitude of [-90, 90] as it is; the angular
    difference of a longitude and itself is zero; the normalization of
    angles is odd; the conformal-latitude mapping sends 0 to 0. *)
Record MathContract (M : MathLib) : Prop := {
  LatFix_id : forall x, - qd <= x <= qd -> LatFix M x = x;
  AngDiff_self : forall x, AngDiff M x x = 0;
  AngNormalize_odd : forall x, AngNormalize M (- x) = - AngNormalize M x;
  taupf_0 : forall es, taupf M 0 es = 0
}.

(** A stand-in for the exact engine whose constructor accepts every
    argument; the core never looks inside it.  It fills the place of the
    exact engine in the engines below, which do not use it. *)
Definition StubExact : ExactEngine :=
  {| TMExact := unit;
     TMExact_new := fun _ _ _ _ => inr tt;
     TMExact_default := tt;
     TMExact_Forward := fun _ _ _ _ => (0, 0, 0, 0);
     TMExact_Reverse := fun _ _ _ _ => (0, 0, 0, 0) |}.

(** The binary64 values -1 and 1/2. *)
Definition SF_minus_one : spec_float :=
  S754_finite true 4503599627370496 (-52).
Definition SF_half : spec_float :=
  S754_finite false 4503599627370496 (-53).

(** Two engines of the default order 6 with equatorial radius 1 and
    central scale 1: a sphere, and an ellipsoid of flattening 1/2 (third
    flattening 1/3). *)
Definition unit_sphere : TransverseMercator StubExact :=
  series_engine RefMath StubExact Order6 1 0 1.

Definition flat_ellipsoid : TransverseMercator StubExact :=
  series_engine RefMath StubExact Order6 1 (1 / 2) 1.

(** ** What the constructor checks, in the words of the specification *)

Definition non_finite (x : spec_float) : Prop := isfinite x = false.
Definition non_positive (x : spec_float) : Prop := SFleb x SF_zero = true.
Definition at_least_one (x : spec_float) : Prop := SFleb SF_one x = true.

(** "Configuration fails with a configuration error". *)
Definition throws {A : Type} (r : GeographicErr + A) : Prop :=
  exists e, r = inl e.

(** Modelled from the spec: the constructor of [TransverseMercatorExact]
    (not under [src/]).  The validation failures the spec lists for a
    configuration are a radius that is not finite and positive, a
    flattening that is not finite or is at least 1, and a scale that is not
    finite and positive; the extended-domain flag is a failure only while
    the exact engine is not used.  An exact engine [validates] when its
    constructor fails on exactly these three. *)
Definition validates (X : ExactEngine) : Prop :=
  forall (a f k0 : spec_float) (extendp : bool),
    throws (TMExact_new X a f k0 extendp)
    <-> (non_finite a \/ non_positive a)
        \/ (non_finite f \/ at_least_one f)
        \/ (non_finite k0 \/ non_positive k0).

(** Modelled from the spec: an exact engine whose constructor makes these
    three checks and accepts the extended-domain flag.  Its projection is
    not modelled; the core hands every call to it unchanged. *)
Definition ValidatingExact : ExactEngine :=
  {| TMExact := unit;
     TMExact_new := fun a f k0 _ =>
       if negb (isfinite a && SFltb SF_zero a) then
         inl (GeographicErr_msg "Equatorial radius is not positive")
       else if negb (isfinite f && SFltb f SF_one) then
         inl (GeographicErr_msg "Polar semi-axis is not positive")
       else if negb (isfinite k0 && SFltb SF_zero k0) then
         inl (GeographicErr_msg "Scale is not positive")
       else inr tt;
     TMExact_default := tt;
     TMExact_Forward := fun _ _ _ _ => (0, 0, 0, 0);
     TMExact_Reverse := fun _ _ _ _ => (0, 0, 0, 0) |}.

(** ** The sign of a zero *)

(** The source takes the signs of the latitude and of the longitude
    difference with [signbit], which tells the binary64 value -0.0 from
    +0.0; a real number has no such sign.  [signbit_z z x] is [signbit]
    of a binary64 value whose real value is [x] and whose sign bit, when
    [x] is 0, is [z]. *)
Definition signbit_z (z : bool) (x : R) : bool :=
  if Reqb x 0 then z else signbit x.

(** [TransverseMercator::Forward] again, with the sign bit [zlat] of the
    normalized latitude when it is a zero and the sign bit [zlon] of the
    longitude difference when it is a zero; [Forward] is the case of two
    positive zeros.  The two signs are taken first and multiplied away at
    once, and [lat == 0] holds of a zero of either sign, so that nothing
    else in the body depends on the sign of a zero. *)
Definition Forward_z (M : MathLib) (X : ExactEngine) (ord : Order)
  (zlat zlon : bool) (tm : TransverseMercator X) (lon0 lat lon : R)
  : option (R * R * R * R) :=
  if _exact X tm then Some (TMExact_Forward X (_tmexact X tm) lon0 lat lon)
  else
    let lat := LatFix M lat in
    let lon := AngDiff M lon0 lon in
    let latsign := if signbit_z zlat lat then (-1)%Z else 1%Z in
    let lonsign := if signbit_z zlon lon then (-1)%Z else 1%Z in
    let lon := lon * IZR lonsign in
    let lat := lat * IZR latsign in
    let backside := Rgtb lon qd in
    let latsign := if backside then (if Reqb lat 0 then (-1)%Z else latsign)
                   else latsign in
    let lon := if backside then hd - lon else lon in
    let '(sphi, cphi) := sincosd lat in
    let '(slam, clam) := sincosd lon in
    let '(xip, etap, gamma, k) :=
      if negb (Reqb lat qd) then
        let tau := sphi / cphi in
        let taup := taupf M tau (_es X tm) in
        (atan2 taup clam,
         asinh (slam / hypot taup clam),
         atan2d (slam * taup) (clam * hypot 1 taup),
         sqrt (_e2m X tm + _e2 X tm * sq cphi) * hypot 1 tau
         / hypot taup clam)
      else (PI / 2, 0, lon, _c X tm) in
    match Forward_series ord (_alp X tm) xip etap with
    | None => None
    | Some (y1, z1) =>
        let gamma := gamma - atan2d (im z1) (re z1) in
        let k := k * (_b1 X tm * Cabs z1) in
        let xi := re y1 in
        let eta := im y1 in
        let y := _a1 X tm * _k0 X tm * (if backside then PI - xi else xi)
                 * IZR latsign in
        let x := _a1 X tm * _k0 X tm * eta * IZR lonsign in
        let gamma := if backside then hd - gamma else gamma in
        let gamma := gamma * IZR (latsign * lonsign) in
        let gamma := AngNormalize M gamma in
        let k := k * _k0 X tm in
        Some (x, y, gamma, k)
    end.

(** ** The Gauss-Schreiber point of [Forward] *)



(** ** Notions used to state further properties of the code *)

(** The state [(o, d, _alp, _bet)] of the coefficient loop of the
    constructor after its first [upto] turns, for the third flattening
    [n]; the arrays start as the member initialisers leave them. *)
Definition coeff_loop (ord : Order) (n : R) (upto : nat)
  : Z * R * list R * list R :=
  fold_left (coeff_step ord n) (map Z.of_nat (seq 1 upto))
            (0%Z, n, repeat 0 (Z.to_nat (maxpow_ ord + 1)),
             repeat 0 (Z.to_nat (maxpow_ ord + 1))).

Definition loop_offset (st : Z * R * list R * list R) : Z :=
  let '(o, _, _, _) := st in o.
Definition loop_alp (st : Z * R * list R * list R) : list R :=
  let '(_, _, alp, _) := st in alp.
Definition loop_bet (st : Z * R * list R * list R) : list R :=
  let '(_, _, _, bet) := st in bet.

(** The value of [o] when the turn [l] of the coefficient loop starts:
    every earlier turn [i] has added [maxpow_ - i + 2] to it. *)
Definition table_offset (ord : Order) (l : nat) : Z :=
  fold_left (fun o i => (o + (maxpow_ ord - i) + 2)%Z)
            (map Z.of_nat (seq 1 (l - 1))) 0%Z.

(** What the turn [l] stores in slot [l]: [n^l] times the polynomial of
    degree [maxpow_ - l] found at [table_offset] in the table, divided by
    the entry that follows the polynomial. *)
Definition table_entry (ord : Order) (table : list R) (n : R) (l : nat) : R :=
  let m := (maxpow_ ord - Z.of_nat l)%Z in
  let o := table_offset ord l in
  n ^ l * polyval m (offset table o) n / at_ table (o + m + 1).

(** The three tests of the constructor, as the conditions it negates. *)
Definition radius_ok (a : spec_float) : bool :=
  isfinite a && SFltb SF_zero a.
Definition flattening_ok (f : spec_float) : bool :=
  isfinite f && SFltb f SF_one.
Definition scale_ok (k0 : spec_float) : bool :=
  isfinite k0 && SFltb SF_zero k0.

(** What holds of the members of every engine the constructor returns
    without the exact engine. *)
Definition well_formed {X : ExactEngine} (tm : TransverseMercator X) : Prop :=
  _exact X tm = false
  /\ -1 < _n X tm < 1
  /\ 0 < _e2m X tm
  /\ _e2m X tm + _e2 X tm = 1
  /\ 0 < _c X tm
  /\ 0 < _b1 X tm
  /\ 0 < _a1 X tm
  /\ 0 < _k0 X tm.

(** The derivative series on the real axis, zeta' = xip:
    1 + sum_j 2 j coeff[j] cos(2 j xip). *)
Definition derivative_on_meridian (coeff : nat -> R) (N : nat) (xip : R) : R :=
  1 + Rsum (fun j => 2 * INR j * coeff j * cos (2 * INR j * xip)) N.

(** The Gauss-Schreiber northing of a point of the central meridian at the
    absolute latitude [L] (degrees), as [Forward] computes it. *)
Definition meridian_xip (M : MathLib) {X : ExactEngine}
  (tm : TransverseMercator X) (L : R) : R :=
  if Reqb L qd then PI / 2
  else atan2 (taupf M (sin (L * (PI / 180)) / cos (L * (PI / 180)))
                    (_es X tm)) 1.

(* ================================================================== *)
(** * Part II: theorems                                                *)
(* ================================================================== *)

(** ** Complex numbers form a commutative ring *)

Lemma complex_eq (u v : complex) : re u = re v -> im u = im v -> u = v.
Proof. destruct u, v; simpl; intros -> ->; reflexivity. Qed.

Ltac csolve :=
  intros; apply complex_eq; simpl; try ring.

Lemma complex_ring_theory :
  ring_theory C0 C1 Cadd Cmul Csub Copp (@eq complex).
Proof.
  constructor; csolve.
Qed.

Add Ring complex_ring : complex_ring_theory.

Lemma Cadd_real_eq (u : complex) (x : R) : Cadd_real u x = (u + RtoC x)%C.
Proof. csolve. Qed.

Lemma Csub_real_eq (u : complex) (x : R) : Csub_real u x = (u - RtoC x)%C.
Proof. csolve. Qed.

Lemma real_Csub_eq (x : R) (u : complex) : real_Csub x u = (RtoC x - u)%C.
Proof. csolve. Qed.

Lemma Cscale_eq (x : R) (u : complex) : Cscale x u = (RtoC x * u)%C.
Proof. csolve. Qed.

Lemma Cmult_comm_aux (u v : complex) : (u * v)%C = (v * u)%C.
Proof. ring. Qed.

Lemma Csum_S (f : nat -> complex) (N : nat) :
  Csum f (S N) = (Csum f N + f (S N))%C.
Proof. reflexivity. Qed.

Lemma Csum_ext (f g : nat -> complex) (N : nat) :
  (forall j, (1 <= j <= N)%nat -> f j = g j) -> Csum f N = Csum g N.
Proof.
  induction N as [| N IH]; intros H; [reflexivity |].
  rewrite !Csum_S, IH, (H (S N)) by (intros; try apply H; lia).
  reflexivity.
Qed.

(** ** Hyperbolic and complex addition formulas *)

Lemma cosh_plus (x y : R) : cosh (x + y) = cosh x * cosh y + sinh x * sinh y.
Proof.
  unfold cosh, sinh.
  replace (- (x + y)) with (- x + - y) by ring.
  rewrite !exp_plus. field.
Qed.

Lemma sinh_plus (x y : R) : sinh (x + y) = sinh x * cosh y + cosh x * sinh y.
Proof.
  unfold cosh, sinh.
  replace (- (x + y)) with (- x + - y) by ring.
  rewrite !exp_plus. field.
Qed.

Lemma cosh_opp (x : R) : cosh (- x) = cosh x.
Proof. unfold cosh. rewrite Ropp_involutive. field. Qed.

Lemma sinh_opp (x : R) : sinh (- x) = - sinh x.
Proof. unfold sinh. rewrite Ropp_involutive. field. Qed.

Lemma Csin_add (u v : complex) :
  Csin (u + v) = (Csin u * Ccos v + Ccos u * Csin v)%C.
Proof.
  apply complex_eq; simpl;
    rewrite ?sin_plus, ?cos_plus, ?cosh_plus, ?sinh_plus; ring.
Qed.

Lemma Ccos_add (u v : complex) :
  Ccos (u + v) = (Ccos u * Ccos v - Csin u * Csin v)%C.
Proof.
  apply complex_eq; simpl;
    rewrite ?sin_plus, ?cos_plus, ?cosh_plus, ?sinh_plus; ring.
Qed.

Lemma Csin_C0 : Csin C0 = C0.
Proof. apply complex_eq; simpl; rewrite ?sin_0, ?sinh_0; ring. Qed.

Lemma Ccos_C0 : Ccos C0 = C1.
Proof.
  apply complex_eq; simpl; rewrite ?sin_0, ?cos_0, ?cosh_0, ?sinh_0; ring.
Qed.

Lemma Csin_sub (u v : complex) :
  Csin (u - v) = (Csin u * Ccos v - Ccos u * Csin v)%C.
Proof.
  apply complex_eq; simpl; unfold Rminus;
    rewrite ?sin_plus, ?cos_plus, ?cosh_plus, ?sinh_plus,
            ?sin_neg, ?cos_neg, ?cosh_opp, ?sinh_opp; ring.
Qed.

Lemma Ccos_sub (u v : complex) :
  Ccos (u - v) = (Ccos u * Ccos v + Csin u * Csin v)%C.
Proof.
  apply complex_eq; simpl; unfold Rminus;
    rewrite ?sin_plus, ?cos_plus, ?cosh_plus, ?sinh_plus,
            ?sin_neg, ?cos_neg, ?cosh_opp, ?sinh_opp; ring.
Qed.

(** ** The three-term recurrences behind Clenshaw summation *)

Section ThreeTerm.

Variable x : complex.

Let a : complex := Cscale 2 (Ccos x).
Let Sn (k : nat) : complex := Csin (Cscale (INR k) x).
Let Kn (k : nat) : complex := Ccos (Cscale (INR k) x).

Lemma Cscale_succ (k : nat) : Cscale (INR (S k)) x = (Cscale (INR k) x + x)%C.
Proof. rewrite S_INR. csolve. Qed.

Lemma sin_three_term (k : nat) : (a * Sn (S k))%C = (Sn (S (S k)) + Sn k)%C.
Proof.
  unfold Sn, a.
  rewrite (Cscale_succ (S k)).
  replace (Cscale (INR k) x) with (Cscale (INR (S k)) x - x)%C
    by (rewrite Cscale_succ; ring).
  rewrite Csin_add, Csin_sub, Cscale_eq.
  replace (RtoC 2) with (C1 + C1)%C by csolve.
  ring.
Qed.

Lemma cos_three_term (k : nat) : (a * Kn (S k))%C = (Kn (S (S k)) + Kn k)%C.
Proof.
  unfold Kn, a.
  rewrite (Cscale_succ (S k)).
  replace (Cscale (INR k) x) with (Cscale (INR (S k)) x - x)%C
    by (rewrite Cscale_succ; ring).
  rewrite Ccos_add, Ccos_sub, Cscale_eq.
  replace (RtoC 2) with (C1 + C1)%C by csolve.
  ring.
Qed.

Lemma Sn_0 : Sn 0 = C0.
Proof.
  unfold Sn. replace (Cscale (INR 0) x) with C0 by csolve. apply Csin_C0.
Qed.

Lemma Kn_0 : Kn 0 = C1.
Proof.
  unfold Kn. replace (Cscale (INR 0) x) with C0 by csolve. apply Ccos_C0.
Qed.

Variable c : Z -> R.

Lemma clenshaw_while_done (fuel : nat) (y0 y1 z0 z1 : complex) :
  clenshaw_while fuel c a 0 y0 y1 z0 z1 = Some (y0, y1, z0, z1).
Proof. destruct fuel; reflexivity. Qed.

Lemma clenshaw_while_turn (fuel : nat) (n : Z) (y0 y1 z0 z1 : complex) :
  n <> 0%Z ->
  clenshaw_while (S fuel) c a n y0 y1 z0 z1 =
  let y1' := (a * y0 - y1 + RtoC (c n))%C in
  let z1' := (a * z0 - z1 + RtoC (IZR (2 * n) * c n))%C in
  let y0' := (a * y1' - y0 + RtoC (c (n - 1)%Z))%C in
  let z0' := (a * z1' - z0 + RtoC (IZR (2 * (n - 1)) * c (n - 1)%Z))%C in
  clenshaw_while fuel c a (n - 1 - 1)%Z y0' y1' z0' z1'.
Proof.
  intros Hn. simpl. apply Z.eqb_neq in Hn. rewrite Hn. reflexivity.
Qed.

(** The invariant of the loop: after the turns that bring the counter from
    [p] (even) down to 0, the accumulators hold the part of the two sums
    with indices 1..p. *)
Lemma clenshaw_while_sums (m : nat) :
  forall (p fuel : nat) (y0 y1 z0 z1 : complex),
    p = (2 * m)%nat -> (m <= fuel)%nat ->
    exists y0' y1' z0' z1',
      clenshaw_while fuel c a (Z.of_nat p) y0 y1 z0 z1
      = Some (y0', y1', z0', z1')
      /\ (y0' * Sn 1 =
          y0 * Sn (S p) - y1 * Sn p
          + Csum (fun j => RtoC (c (Z.of_nat j)) * Sn j) p)%C
      /\ (z0' * Kn 1 - z1' =
          z0 * Kn (S p) - z1 * Kn p
          + Csum (fun j => RtoC (2 * INR j * c (Z.of_nat j)) * Kn j) p)%C.
Proof.
  induction m as [| m IH]; intros p fuel y0 y1 z0 z1 Hp Hfuel.
  - simpl in Hp. subst p. exists y0, y1, z0, z1. simpl Z.of_nat.
    rewrite clenshaw_while_done. split; [reflexivity |].
    simpl Csum. rewrite Sn_0, Kn_0. split; ring.
  - destruct p as [| [| p]]; try lia.
    destruct fuel as [| fuel]; [lia |].
    rewrite clenshaw_while_turn by lia.
    cbv zeta.
    replace (Z.of_nat (S (S p)) - 1)%Z with (Z.of_nat (S p)) by lia.
    replace (Z.of_nat (S p) - 1)%Z with (Z.of_nat p) by lia.
    match goal with
    | |- context [clenshaw_while fuel c a (Z.of_nat p) ?u0 ?u1 ?v0 ?v1] =>
        destruct (IH p fuel u0 u1 v0 v1 ltac:(lia) ltac:(lia))
          as (y0' & y1' & z0' & z1' & Hrun & Hy & Hz)
    end.
    exists y0', y1', z0', z1'. split; [exact Hrun |].
    pose proof (sin_three_term p) as S1.
    pose proof (sin_three_term (S p)) as S2.
    pose proof (cos_three_term p) as K1.
    pose proof (cos_three_term (S p)) as K2.
    assert (S1' : Sn p = (a * Sn (S p) - Sn (S (S p)))%C)
      by (rewrite S1; ring).
    assert (S2' : Sn (S (S (S p))) = (a * Sn (S (S p)) - Sn (S p))%C)
      by (rewrite S2; ring).
    assert (K1' : Kn p = (a * Kn (S p) - Kn (S (S p)))%C)
      by (rewrite K1; ring).
    assert (K2' : Kn (S (S (S p))) = (a * Kn (S (S p)) - Kn (S p))%C)
      by (rewrite K2; ring).
    split.
    + rewrite Hy, !Csum_S, S2'. rewrite S1' at 1. ring.
    + rewrite Hz, !Csum_S, K2'. rewrite K1' at 1.
      replace (IZR (2 * Z.of_nat (S (S p)))) with (2 * INR (S (S p)))
        by (rewrite mult_IZR, <- INR_IZR_INZ; reflexivity).
      replace (IZR (2 * Z.of_nat (S p))) with (2 * INR (S p))
        by (rewrite mult_IZR, <- INR_IZR_INZ; reflexivity).
      ring.
Qed.

End ThreeTerm.

(** ** The loops of the source are instances of the recurrence *)

Lemma Forward_while_clenshaw (alp : list R) (a : complex) :
  forall (fuel : nat) (n : Z) (y0 y1 z0 z1 : complex),
    Forward_while fuel alp a n y0 y1 z0 z1
    = clenshaw_while fuel (at_ alp) a n y0 y1 z0 z1.
Proof.
  induction fuel as [| fuel IH]; intros n y0 y1 z0 z1; simpl;
    [reflexivity |].
  destruct (n =? 0)%Z; [reflexivity |].
  rewrite IH, !Cadd_real_eq. reflexivity.
Qed.

Lemma Reverse_while_clenshaw (bet : list R) (a : complex) :
  forall (fuel : nat) (n : Z) (y0 y1 z0 z1 : complex),
    Reverse_while fuel bet a n y0 y1 z0 z1
    = clenshaw_while fuel (fun i => - at_ bet i) a n y0 y1 z0 z1.
Proof.
  induction fuel as [| fuel IH]; intros n y0 y1 z0 z1; simpl;
    [reflexivity |].
  destruct (n =? 0)%Z; [reflexivity |].
  rewrite IH, !Csub_real_eq.
  repeat match goal with
         | |- context [(?u - RtoC ?v)%C] =>
             replace (u - RtoC v)%C with (u + RtoC (- v))%C by csolve
         end.
  repeat match goal with
         | |- context [RtoC (- (?u * at_ bet ?i))] =>
             replace (- (u * at_ bet i)) with (u * - at_ bet i) by ring
         end.
  reflexivity.
Qed.

(** ** From the loop to the series *)

Section Series.

Variable c : Z -> R.
Variables xip etap : R.

Let zeta : complex := mkC xip etap.
Let x : complex := Cscale 2 zeta.
Let a : complex :=
  mkC (2 * cos (2 * xip) * cosh (2 * etap))
      (-2 * sin (2 * xip) * sinh (2 * etap)).

Lemma a_is_2cos : a = Cscale 2 (Ccos x).
Proof. apply complex_eq; simpl; ring. Qed.

(** The last assignments of the series evaluation, applied to the state the
    loop leaves: they produce the two series of the specification.  [p] is
    the (even) value of the counter when the loop starts, [N] the order,
    and [y0], [z0] the initial accumulators. *)
Lemma clenshaw_finish (m p N fuel : nat) (y0 z0 : complex) :
  p = (2 * m)%nat -> (m <= fuel)%nat ->
  (y0 * Csin (Cscale (INR (S p)) x)
   + Csum (fun j => RtoC (c (Z.of_nat j)) * Csin (Cscale (INR j) x)) p
   = Csum (fun j => RtoC (c (Z.of_nat j)) * Csin (Cscale (INR j) x)) N)%C ->
  (z0 * Ccos (Cscale (INR (S p)) x)
   + Csum (fun j => RtoC (2 * INR j * c (Z.of_nat j))
                    * Ccos (Cscale (INR j) x)) p
   = Csum (fun j => RtoC (2 * INR j * c (Z.of_nat j))
                    * Ccos (Cscale (INR j) x)) N)%C ->
  exists y0' y1' z0' z1',
    clenshaw_while fuel c a (Z.of_nat p) y0 C0 z0 C0
    = Some (y0', y1', z0', z1')
    /\ (zeta + mkC (sin (2 * xip) * cosh (2 * etap))
                   (cos (2 * xip) * sinh (2 * etap)) * y0')%C
       = spec_series_sum (fun j => c (Z.of_nat j)) N zeta
    /\ (real_Csub 1 z1' + Cdiv_real a 2 * z0')%C
       = spec_series_derivative (fun j => c (Z.of_nat j)) N zeta.
Proof.
  intros Hp Hfuel Hy0 Hz0.
  rewrite a_is_2cos.
  destruct (clenshaw_while_sums x c m p fuel y0 C0 z0 C0 Hp Hfuel)
    as (y0' & y1' & z0' & z1' & Hrun & Hy & Hz).
  exists y0', y1', z0', z1'. split; [exact Hrun |].
  assert (Hx1 : Cscale (INR 1) x = x) by csolve.
  rewrite Hx1 in Hy, Hz.
  assert (Hsx : mkC (sin (2 * xip) * cosh (2 * etap))
                    (cos (2 * xip) * sinh (2 * etap)) = Csin x)
    by reflexivity.
  assert (Hcx : Cdiv_real (Cscale 2 (Ccos x)) 2 = Ccos x)
    by (apply complex_eq; simpl; field).
  assert (Hsc : forall j, Cscale (INR j) x = Cscale (2 * INR j) zeta)
    by (intros j; csolve).
  split.
  - rewrite Hsx. unfold spec_series_sum. f_equal.
    rewrite Cmult_comm_aux, Hy.
    replace (y0 * Csin (Cscale (INR (S p)) x) - C0 * Csin (Cscale (INR p) x)
             + Csum (fun j => RtoC (c (Z.of_nat j)) * Csin (Cscale (INR j) x)) p)%C
      with (y0 * Csin (Cscale (INR (S p)) x)
            + Csum (fun j => RtoC (c (Z.of_nat j)) * Csin (Cscale (INR j) x)) p)%C
      by ring.
    rewrite Hy0. apply Csum_ext. intros j _.
    rewrite Hsc, Cscale_eq. symmetry. apply Cscale_eq.
  - rewrite Hcx, real_Csub_eq. unfold spec_series_derivative.
    replace (RtoC 1 - z1' + Ccos x * z0')%C
      with (C1 + (z0' * Ccos x - z1'))%C by (unfold C1; ring).
    f_equal. rewrite Hz.
    replace (z0 * Ccos (Cscale (INR (S p)) x) - C0 * Ccos (Cscale (INR p) x)
             + Csum (fun j => RtoC (2 * INR j * c (Z.of_nat j))
                              * Ccos (Cscale (INR j) x)) p)%C
      with (z0 * Ccos (Cscale (INR (S p)) x)
            + Csum (fun j => RtoC (2 * INR j * c (Z.of_nat j))
                             * Ccos (Cscale (INR j) x)) p)%C
      by ring.
    rewrite Hz0. apply Csum_ext. intros j _.
    rewrite Hsc, Cscale_eq. symmetry. apply Cscale_eq.
Qed.

End Series.

(** For each of the five orders the loop ends within the fuel it is given
    and the final assignments yield the two series. *)
Lemma clenshaw_order (ord : Order) (c : Z -> R) (xip etap : R) :
  let a := mkC (2 * cos (2 * xip) * cosh (2 * etap))
               (-2 * sin (2 * xip) * sinh (2 * etap)) in
  let n := maxpow_ ord in
  exists y0' y1' z0' z1',
    clenshaw_while (while_fuel ord) c a (if is_odd n then (n - 1)%Z else n)
      (RtoC (if is_odd n then c n else 0)) C0
      (RtoC (if is_odd n then IZR (2 * n) * c n else 0)) C0
    = Some (y0', y1', z0', z1')
    /\ (mkC xip etap + mkC (sin (2 * xip) * cosh (2 * etap))
                           (cos (2 * xip) * sinh (2 * etap)) * y0')%C
       = spec_series_sum (fun j => c (Z.of_nat j)) (Z.to_nat n) (mkC xip etap)
    /\ (real_Csub 1 z1' + Cdiv_real a 2 * z0')%C
       = spec_series_derivative (fun j => c (Z.of_nat j)) (Z.to_nat n)
                                (mkC xip etap).
Proof.
  intros a n.
  assert (Heven : forall f (p : nat) (u : complex),
             (RtoC 0 * u + Csum f p)%C = Csum f p)
    by (intros; change (RtoC 0) with C0; ring).
  destruct ord; subst a n;
    cbn [maxpow_ GEOGRAPHICLIB_TRANSVERSEMERCATOR_ORDER].
  - (* order 4 *)
    change (is_odd 4) with false. cbv iota.
    apply (clenshaw_finish c xip etap 2 4 4 4); try lia; apply Heven.
  - (* order 5 *)
    change (is_odd 5) with true. cbv iota.
    apply (clenshaw_finish c xip etap 2 4 5 5); try lia;
      rewrite (Csum_S _ 4); cbv beta;
      change (Z.of_nat 5) with 5%Z;
      replace (2 * INR 5) with (IZR (2 * 5)) by (simpl; ring); ring.
  - (* order 6 *)
    change (is_odd 6) with false. cbv iota.
    apply (clenshaw_finish c xip etap 3 6 6 6); try lia; apply Heven.
  - (* order 7 *)
    change (is_odd 7) with true. cbv iota.
    apply (clenshaw_finish c xip etap 3 6 7 7); try lia;
      rewrite (Csum_S _ 6); cbv beta;
      change (Z.of_nat 7) with 7%Z;
      replace (2 * INR 7) with (IZR (2 * 7)) by (simpl; ring); ring.
  - (* order 8 *)
    change (is_odd 8) with false. cbv iota.
    apply (clenshaw_finish c xip etap 4 8 8 8); try lia; apply Heven.
Qed.

Lemma Forward_series_spec (ord : Order) (alp : list R) (xip etap : R) :
  Forward_series ord alp xip etap
  = Some (spec_series_sum (coeff_of alp) (Z.to_nat (maxpow_ ord))
                          (mkC xip etap),
          spec_series_derivative (coeff_of alp) (Z.to_nat (maxpow_ ord))
                                 (mkC xip etap)).
Proof.
  unfold Forward_series. rewrite Forward_while_clenshaw.
  destruct (clenshaw_order ord (at_ alp) xip etap)
    as (y0' & y1' & z0' & z1' & Hrun & Hy & Hz).
  rewrite Hrun, Hy, Hz. reflexivity.
Qed.

Lemma Reverse_series_spec (ord : Order) (bet : list R) (xi eta : R) :
  Reverse_series ord bet xi eta
  = Some (spec_series_sum (neg_coeff_of bet) (Z.to_nat (maxpow_ ord))
                          (mkC xi eta),
          spec_series_derivative (neg_coeff_of bet) (Z.to_nat (maxpow_ ord))
                                 (mkC xi eta)).
Proof.
  unfold Reverse_series. rewrite Reverse_while_clenshaw.
  destruct (clenshaw_order ord (fun i => - at_ bet i) xi eta)
    as (y0' & y1' & z0' & z1' & Hrun & Hy & Hz).
  replace (IZR (-2 * maxpow_ ord) * at_ bet (maxpow_ ord))
    with (IZR (2 * maxpow_ ord) * - at_ bet (maxpow_ ord))
    by (rewrite !mult_IZR; ring).
  rewrite Hrun, Hy, Hz. reflexivity.
Qed.

(* ------------------------------------------------------------------ *)
(** ** The Clenshaw evaluation (C2)                                    *)
(* ------------------------------------------------------------------ *)

(** C2.  The Clenshaw evaluation of both transforms produces exactly, over
    the reals, the truncated series and its derivative.  For every order
    4..8, all coefficient arrays and every argument zeta' = xip + i etap:
    the multiplier [a] built by the source is 2 cos(2 zeta'); the loop of
    [Forward] (recurrence b[k] = a b[k+1] - b[k+2] + _alp[k], from the
    highest index down to 1, two steps per turn) ends within its fuel, and
    the final assignments give
      zeta' + sum_{j=1..order} _alp[j] sin(2 j zeta')   and
      1 + sum_{j=1..order} 2 j _alp[j] cos(2 j zeta');
    the loop of [Reverse] gives the same series with the coefficients
    [-_bet[j]]. *)
Theorem C2_clenshaw_evaluates_truncated_series :
  forall (ord : Order) (alp bet : list R) (xip etap : R),
    let N := Z.to_nat (maxpow_ ord) in
    let zeta := mkC xip etap in
    mkC (2 * cos (2 * xip) * cosh (2 * etap))
        (-2 * sin (2 * xip) * sinh (2 * etap))
    = Cscale 2 (Ccos (Cscale 2 zeta))
    /\ Forward_series ord alp xip etap
       = Some (spec_series_sum (coeff_of alp) N zeta,
               spec_series_derivative (coeff_of alp) N zeta)
    /\ Reverse_series ord bet xip etap
       = Some (spec_series_sum (neg_coeff_of bet) N zeta,
               spec_series_derivative (neg_coeff_of bet) N zeta).
Proof.
  intros ord alp bet xip etap N zeta. repeat split.
  - apply a_is_2cos.
  - apply Forward_series_spec.
  - apply Reverse_series_spec.
Qed.

(* ------------------------------------------------------------------ *)
(** ** The constructor (C3, C9)                                        *)
(* ------------------------------------------------------------------ *)

Lemma SFcompare_antisym (x y : spec_float) :
  SFcompare y x = option_map CompOpp (SFcompare x y).
Proof.
  destruct x as [sx | sx | | sx mx ex], y as [sy | sy | | sy my ey];
    simpl; try reflexivity;
    try (destruct sx; reflexivity); try (destruct sy; reflexivity);
    try (destruct sx, sy; reflexivity).
  assert (Hm : Pos.compare_cont Eq my mx
               = CompOpp (Pos.compare_cont Eq mx my))
    by (apply (Pos.compare_antisym mx my)).
  f_equal. destruct sx, sy; try reflexivity;
    rewrite (Z.compare_antisym ex ey); destruct (ex ?= ey)%Z; simpl;
    try reflexivity; rewrite Hm, ?CompOpp_involutive; reflexivity.
Qed.

(** For an ordered pair, "not x < y" is "y <= x". *)
Lemma SFltb_false_SFleb (x y : spec_float) :
  isfinite x = true -> isfinite y = true ->
  (SFltb x y = false <-> SFleb y x = true).
Proof.
  intros Hx Hy. unfold SFltb, SFleb. rewrite (SFcompare_antisym x y).
  destruct (SFcompare x y) as [[| |] |] eqn:E; simpl;
    try (split; congruence).
  destruct x, y; simpl in *; discriminate.
Qed.

Lemma check_positive (x : spec_float) :
  negb (isfinite x && SFltb SF_zero x) = true
  <-> non_finite x \/ non_positive x.
Proof.
  unfold non_finite, non_positive.
  destruct (isfinite x) eqn:Hfin; simpl.
  - rewrite negb_true_iff, (SFltb_false_SFleb SF_zero x eq_refl Hfin).
    split; [right; assumption | intros [H | H]; [discriminate | exact H]].
  - split; [left; reflexivity | reflexivity].
Qed.

Lemma check_below_one (x : spec_float) :
  negb (isfinite x && SFltb x SF_one) = true
  <-> non_finite x \/ at_least_one x.
Proof.
  unfold non_finite, at_least_one.
  destruct (isfinite x) eqn:Hfin; simpl.
  - rewrite negb_true_iff, (SFltb_false_SFleb x SF_one Hfin eq_refl).
    split; [right; assumption | intros [H | H]; [discriminate | exact H]].
  - split; [left; reflexivity | reflexivity].
Qed.

Section Constructor.

Variable M : MathLib.
Variable X : ExactEngine.
Variable ord : Order.

(** The constructor with the exact engine: the outcome is the outcome of
    the constructor of [TransverseMercatorExact], nothing is checked here. *)
Lemma new_exact (a f k0 : spec_float) (extendp : bool) :
  TransverseMercator_new M X ord a f k0 true extendp
  = match TMExact_new X a f k0 extendp with
    | inl e => inl e
    | inr ex =>
        inr (initialise M X ord (SF2R a) (SF2R f) (SF2R k0) true ex)
    end.
Proof.
  unfold TransverseMercator_new.
  destruct (TMExact_new X a f k0 extendp); reflexivity.
Qed.

(** The constructor without the exact engine, when all four checks pass. *)
Lemma new_series (a f k0 : spec_float) :
  negb (isfinite a && SFltb SF_zero a) = false ->
  negb (isfinite f && SFltb f SF_one) = false ->
  negb (isfinite k0 && SFltb SF_zero k0) = false ->
  TransverseMercator_new M X ord a f k0 false false
  = inr (series_engine M X ord (SF2R a) (SF2R f) (SF2R k0)).
Proof.
  intros Ha Hf Hk. unfold TransverseMercator_new.
  rewrite Ha, Hf, Hk. reflexivity.
Qed.

Lemma new_series_throws (a f k0 : spec_float) (extendp : bool) :
  throws (TransverseMercator_new M X ord a f k0 false extendp)
  <-> negb (isfinite a && SFltb SF_zero a) = true
      \/ negb (isfinite f && SFltb f SF_one) = true
      \/ negb (isfinite k0 && SFltb SF_zero k0) = true
      \/ extendp = true.
Proof.
  unfold TransverseMercator_new, throws.
  destruct (negb (isfinite a && SFltb SF_zero a));
    [split; eauto |].
  destruct (negb (isfinite f && SFltb f SF_one));
    [split; eauto |].
  destruct (negb (isfinite k0 && SFltb SF_zero k0));
    [split; eauto |].
  destruct extendp; [split; eauto 6 |].
  split.
  - intros [e He]. discriminate He.
  - intros [H | [H | [H | H]]]; discriminate H.
Qed.

End Constructor.

(** [Forward] and [Reverse] have no failing outcome: on every engine and
    for all arguments the loops end and a result is returned. *)
Lemma Forward_returns (M : MathLib) (X : ExactEngine) (ord : Order)
  (tm : TransverseMercator X) (lon0 lat lon : R) :
  exists r, Forward M X ord tm lon0 lat lon = Some r.
Proof.
  unfold Forward. destruct (_exact X tm); [eexists; reflexivity |].
  cbv zeta. unfold sincosd.
  destruct (negb _); rewrite Forward_series_spec; eexists; reflexivity.
Qed.

Lemma Reverse_returns (M : MathLib) (X : ExactEngine) (ord : Order)
  (tm : TransverseMercator X) (lon0 x y : R) :
  exists r, Reverse M X ord tm lon0 x y = Some r.
Proof.
  unfold Reverse. destruct (_exact X tm); [eexists; reflexivity |].
  cbv zeta. rewrite Reverse_series_spec.
  destruct (negb _); eexists; reflexivity.
Qed.

Lemma ValidatingExact_validates : validates ValidatingExact.
Proof.
  intros a f k0 extendp. unfold throws. cbn [TMExact_new ValidatingExact].
  rewrite <- (check_positive a), <- (check_below_one f),
          <- (check_positive k0).
  destruct (negb (isfinite a && SFltb SF_zero a));
    destruct (negb (isfinite f && SFltb f SF_one));
    destruct (negb (isfinite k0 && SFltb SF_zero k0));
    split;
    try (intros _; eexists; reflexivity);
    try (intros _; tauto);
    try (intros [e He]; discriminate He);
    intros [H | [H | H]]; discriminate H.
Qed.

(** C3.  Configuration fails with a configuration error exactly when the
    equatorial radius is non-finite or non-positive, the flattening is
    non-finite or at least 1, the central scale is non-finite or
    non-positive, or the extended-domain flag is requested while the exact
    engine is not used.  Without the exact engine these are the four
    checks of the constructor.  With it the constructor returns before
    them and the outcome is that of the constructor of the exact engine,
    which is not under [src/]: the claim holds for every exact engine that
    validates its arguments as the spec says.  There is no other failure:
    [Forward] and [Reverse] return a result on every engine and for all
    arguments. *)
Theorem C3_configuration_failures :
  forall (M : MathLib) (X : ExactEngine) (ord : Order)
         (a f k0 : spec_float) (extendp : bool),
    (throws (TransverseMercator_new M X ord a f k0 false extendp)
     <-> (non_finite a \/ non_positive a)
         \/ (non_finite f \/ at_least_one f)
         \/ (non_finite k0 \/ non_positive k0)
         \/ extendp = true)
    /\ (throws (TransverseMercator_new M X ord a f k0 true extendp)
        <-> throws (TMExact_new X a f k0 extendp))
    /\ (validates X ->
        forall exact : bool,
          throws (TransverseMercator_new M X ord a f k0 exact extendp)
          <-> (non_finite a \/ non_positive a)
              \/ (non_finite f \/ at_least_one f)
              \/ (non_finite k0 \/ non_positive k0)
              \/ (extendp = true /\ exact = false))
    /\ (forall (tm : TransverseMercator X) (lon0 u v : R),
           (exists r, Forward M X ord tm lon0 u v = Some r)
           /\ (exists r, Reverse M X ord tm lon0 u v = Some r)).
Proof.
  intros M X ord a f k0 extendp.
  assert (Hseries :
            throws (TransverseMercator_new M X ord a f k0 false extendp)
            <-> (non_finite a \/ non_positive a)
                \/ (non_finite f \/ at_least_one f)
                \/ (non_finite k0 \/ non_positive k0)
                \/ extendp = true).
  { rewrite new_series_throws.
    rewrite (check_positive a), (check_below_one f), (check_positive k0).
    reflexivity. }
  assert (Hexact :
            throws (TransverseMercator_new M X ord a f k0 true extendp)
            <-> throws (TMExact_new X a f k0 extendp)).
  { rewrite new_exact. unfold throws.
    destruct (TMExact_new X a f k0 extendp) as [e | ex].
    - split; intros _; exists e; reflexivity.
    - split; intros [e He]; discriminate He. }
  split; [exact Hseries |]. split; [exact Hexact |]. split.
  - intros HX [|].
    + rewrite Hexact, (HX a f k0 extendp).
      split; [tauto |].
      intros [H | [H | [H | [_ H]]]]; [tauto | tauto | tauto | discriminate H].
    + rewrite Hseries. tauto.
  - intros tm lon0 u v. split;
      [apply Forward_returns | apply Reverse_returns].
Qed.

Lemma C3_configuration_failures_witness :
  throws (TransverseMercator_new RefMath ValidatingExact Order6
            SF_minus_one SF_zero SF_one true false).
Proof.
  apply (proj1 (proj2 (proj2 (C3_configuration_failures
                                RefMath ValidatingExact Order6
                                SF_minus_one SF_zero SF_one false)))
           ValidatingExact_validates true).
  left. right. reflexivity.
Defined.

(** C9.  With the exact-engine flag set, the constructor returns before
    any validation: its outcome is that of the constructor of the exact
    engine, whatever the radius, the flattening and the scale are; and on
    the engine so built every [Forward] and every [Reverse] is handed
    unchanged to the exact engine. *)
Theorem C9_exact_engine_delegation :
  forall (M : MathLib) (X : ExactEngine) (ord : Order)
         (a f k0 : spec_float) (extendp : bool),
    TransverseMercator_new M X ord a f k0 true extendp
    = match TMExact_new X a f k0 extendp with
      | inl e => inl e
      | inr ex =>
          inr (initialise M X ord (SF2R a) (SF2R f) (SF2R k0) true ex)
      end
    /\ forall tm,
        TransverseMercator_new M X ord a f k0 true extendp = inr tm ->
        TMExact_new X a f k0 extendp = inr (_tmexact X tm)
        /\ forall lon0 u v : R,
            Forward M X ord tm lon0 u v
            = Some (TMExact_Forward X (_tmexact X tm) lon0 u v)
            /\ Reverse M X ord tm lon0 u v
               = Some (TMExact_Reverse X (_tmexact X tm) lon0 u v).
Proof.
  intros M X ord a f k0 extendp. split; [apply new_exact |].
  intros tm. rewrite new_exact.
  destruct (TMExact_new X a f k0 extendp) as [e | ex]; [discriminate |].
  intros H. injection H as <-. split; [reflexivity |].
  intros lon0 u v. split; reflexivity.
Qed.

Lemma C9_exact_engine_delegation_witness :
  Forward RefMath StubExact Order6
    (initialise RefMath StubExact Order6
       (SF2R SF_minus_one) (SF2R SF_zero) (SF2R SF_one) true tt) 0 0 0
  = Some (0, 0, 0, 0).
Proof.
  exact (proj1 (proj2 (proj2 (C9_exact_engine_delegation
                                RefMath StubExact Order6
                                SF_minus_one SF_zero SF_one false)
                             _ (new_exact _ _ _ _ _ _ _)) 0 0 0)).
Defined.

(* ------------------------------------------------------------------ *)
(** ** The generated coefficients (C7)                                 *)
(* ------------------------------------------------------------------ *)

(** Evaluation of the closed arithmetic of the model: everything is
    computed except the operations of [R]. *)
Ltac rcompute :=
  cbv -[IZR Rplus Rmult Rminus Ropp Rinv Rdiv sqrt exp sin cos PI
        atan ln Rabs Rmax Rmin cosh sinh tanh arcsinh].

Section Generate.

Variable M : MathLib.
Variable X : ExactEngine.
Variable ord : Order.

Lemma generate_b1 (tm : TransverseMercator X) :
  _b1 X (generate X ord tm)
  = polyval (Z.quot (maxpow_ ord) 2) (b1coeff ord) (sq (_n X tm))
    / (at_ (b1coeff ord) (Z.quot (maxpow_ ord) 2 + 1) * (1 + _n X tm)).
Proof.
  unfold generate.
  destruct (fold_left _ _ _) as [[[o d] alp] bet]. reflexivity.
Qed.

Lemma generate_a1 (tm : TransverseMercator X) :
  _a1 X (generate X ord tm) = _b1 X (generate X ord tm) * _a X tm.
Proof.
  unfold generate.
  destruct (fold_left _ _ _) as [[[o d] alp] bet]. reflexivity.
Qed.

(** The generation leaves the other members as the initialisers set them. *)
Lemma generate_keeps (tm : TransverseMercator X) :
  _exact X (generate X ord tm) = _exact X tm
  /\ _k0 X (generate X ord tm) = _k0 X tm
  /\ _e2 X (generate X ord tm) = _e2 X tm
  /\ _e2m X (generate X ord tm) = _e2m X tm
  /\ _es X (generate X ord tm) = _es X tm
  /\ _c X (generate X ord tm) = _c X tm
  /\ _n X (generate X ord tm) = _n X tm.
Proof.
  unfold generate.
  destruct (fold_left _ _ _) as [[[o d] alp] bet]. repeat split.
Qed.

(** On a sphere the polynomial for [b1] is evaluated at 0. *)
Lemma sphere_b1 (a k0 : R) : _b1 X (series_engine M X ord a 0 k0) = 1.
Proof.
  unfold series_engine. rewrite generate_b1.
  cbn [initialise _n].
  replace (0 / (2 - 0)) with 0 by (unfold Rdiv; ring).
  destruct ord; rcompute; field.
Qed.

Lemma sphere_a1 (a k0 : R) : _a1 X (series_engine M X ord a 0 k0) = a.
Proof.
  unfold series_engine. rewrite generate_a1.
  fold (series_engine M X ord a 0 k0). rewrite sphere_b1.
  cbn [initialise _a]. ring.
Qed.

End Generate.

(** C7.  With flattening 0 (so that the third flattening [n] is 0) the
    coefficient generation yields [b1 = 1] and [a1 = a] exactly, for each of
    the orders 4..8: for the engine generated from real parameters, and for
    the engine the constructor returns for a binary64 flattening of +0 or
    -0. *)
Theorem C7_sphere_b1_a1 :
  forall (M : MathLib) (X : ExactEngine) (ord : Order),
    (forall a k0 : R,
        _n X (series_engine M X ord a 0 k0) = 0
        /\ _b1 X (series_engine M X ord a 0 k0) = 1
        /\ _a1 X (series_engine M X ord a 0 k0) = a)
    /\ (forall (a k0 : spec_float) (s extendp : bool) tm,
           TransverseMercator_new M X ord a (S754_zero s) k0 false extendp
           = inr tm ->
           _b1 X tm = 1 /\ _a1 X tm = SF2R a).
Proof.
  intros M X ord. split.
  - intros a k0. split; [| split].
    + unfold series_engine.
      rewrite (proj2 (proj2 (proj2 (proj2 (proj2 (proj2
                (generate_keeps X ord _))))))).
      cbn [initialise _n]. unfold Rdiv. ring.
    + apply sphere_b1.
    + apply sphere_a1.
  - intros a k0 s extendp tm. unfold TransverseMercator_new.
    destruct (negb (isfinite a && SFltb SF_zero a)); [discriminate |].
    destruct (negb (isfinite (S754_zero s) && SFltb (S754_zero s) SF_one));
      [discriminate |].
    destruct (negb (isfinite k0 && SFltb SF_zero k0)); [discriminate |].
    destruct extendp; [discriminate |].
    intros H. injection H as <-.
    change (SF2R (S754_zero s)) with 0.
    fold (series_engine M X ord (SF2R a) 0 (SF2R k0)).
    split; [apply sphere_b1 | apply sphere_a1].
Qed.

Lemma C7_sphere_b1_a1_witness :
  let tm := series_engine RefMath StubExact Order6
              (SF2R SF_one) (SF2R (S754_zero false)) (SF2R SF_one) in
  _b1 StubExact tm = 1 /\ _a1 StubExact tm = SF2R SF_one.
Proof.
  exact (proj2 (C7_sphere_b1_a1 RefMath StubExact Order6)
           SF_one SF_one false false _
           (new_series RefMath StubExact Order6 SF_one (S754_zero false)
              SF_one eq_refl eq_refl eq_refl)).
Defined.

(* ------------------------------------------------------------------ *)
(** ** Tests on reals                                                  *)
(* ------------------------------------------------------------------ *)

Lemma signbit_false (x : R) : 0 <= x -> signbit x = false.
Proof.
  intros H. unfold signbit. destruct (Rlt_dec x 0); [lra | reflexivity].
Qed.

Lemma signbit_true (x : R) : x < 0 -> signbit x = true.
Proof.
  intros H. unfold signbit. destruct (Rlt_dec x 0); [reflexivity | lra].
Qed.

Lemma Rgtb_true (x y : R) : y < x -> Rgtb x y = true.
Proof.
  intros H. unfold Rgtb. destruct (Rgt_dec x y); [reflexivity | lra].
Qed.

Lemma Rgtb_false (x y : R) : x <= y -> Rgtb x y = false.
Proof.
  intros H. unfold Rgtb. destruct (Rgt_dec x y); [lra | reflexivity].
Qed.

Lemma Reqb_true (x y : R) : x = y -> Reqb x y = true.
Proof.
  intros H. unfold Reqb.
  destruct (Req_dec_T x y); [reflexivity | contradiction].
Qed.

Lemma Reqb_false (x y : R) : x <> y -> Reqb x y = false.
Proof.
  intros H. unfold Reqb.
  destruct (Req_dec_T x y); [contradiction | reflexivity].
Qed.

Lemma hypot_0_l (x : R) : 0 <= x -> hypot 0 x = x.
Proof.
  intros H. unfold hypot. replace (0 * 0 + x * x) with (x * x) by ring.
  apply sqrt_square, H.
Qed.

Lemma hypot_1_0 : hypot 1 0 = 1.
Proof.
  unfold hypot. replace (1 * 1 + 0 * 0) with 1 by ring. apply sqrt_1.
Qed.

Lemma atan2_0_nonneg (x : R) : 0 <= x -> atan2 0 x = 0.
Proof.
  intros H. unfold atan2.
  destruct (Rlt_dec 0 x).
  - unfold Rdiv. rewrite Rmult_0_l. apply atan_0.
  - destruct (Rlt_dec x 0); [lra |].
    destruct (Rlt_dec 0 0); [lra | reflexivity].
Qed.

Lemma atan2d_0_nonneg (x : R) : 0 <= x -> atan2d 0 x = 0.
Proof. intros H. unfold atan2d. rewrite atan2_0_nonneg by exact H. ring. Qed.

Lemma Cabs_real (x : R) : Cabs (RtoC x) = Rabs x.
Proof.
  unfold Cabs, RtoC. simpl.
  replace (x * x + 0 * 0) with (Rsqr x) by (unfold Rsqr; ring).
  apply sqrt_Rsqr_abs.
Qed.

(* ------------------------------------------------------------------ *)
(** ** The two series on the axes                                      *)
(* ------------------------------------------------------------------ *)

Lemma Csum_zero (f : nat -> complex) (N : nat) :
  (forall j, (1 <= j <= N)%nat -> f j = C0) -> Csum f N = C0.
Proof.
  induction N as [| N IH]; intros H; [reflexivity |].
  rewrite Csum_S, IH, (H (S N)) by (intros; try apply H; lia).
  csolve.
Qed.

Lemma Csum_real (f : nat -> complex) (g : nat -> R) (N : nat) :
  (forall j, (1 <= j <= N)%nat -> f j = RtoC (g j)) ->
  Csum f N = RtoC (Rsum g N).
Proof.
  induction N as [| N IH]; intros H; [reflexivity |].
  rewrite Csum_S, IH, (H (S N)) by (intros; try apply H; lia).
  csolve.
Qed.

Lemma Rsum_ext (f g : nat -> R) (N : nat) :
  (forall j, (1 <= j <= N)%nat -> f j = g j) -> Rsum f N = Rsum g N.
Proof.
  induction N as [| N IH]; intros H; [reflexivity |].
  simpl. rewrite IH, (H (S N)) by (intros; try apply H; lia). reflexivity.
Qed.

Lemma sin_nat_PI (j : nat) : sin (INR j * PI) = 0.
Proof.
  apply sin_eq_0_1. exists (Z.of_nat j). rewrite INR_IZR_INZ. reflexivity.
Qed.

(** At zeta' = pi/2 every term of the sum vanishes. *)
Lemma series_sum_pole (c : nat -> R) (N : nat) :
  spec_series_sum c N (mkC (PI / 2) 0) = mkC (PI / 2) 0.
Proof.
  unfold spec_series_sum. rewrite Csum_zero.
  - csolve.
  - intros j _. apply complex_eq; simpl.
    + replace (2 * INR j * (PI / 2)) with (INR j * PI) by field.
      rewrite sin_nat_PI. ring.
    + replace (2 * INR j * 0) with 0 by ring. rewrite sinh_0. ring.
Qed.

(** On the imaginary axis, zeta' = i etap, the sum stays on the axis and
    the derivative is real. *)
Lemma series_sum_imaginary (c : nat -> R) (N : nat) (etap : R) :
  re (spec_series_sum c N (mkC 0 etap)) = 0.
Proof.
  unfold spec_series_sum. cbn [re Cadd].
  assert (H : forall n, re (Csum (fun j => Cscale (c j)
                     (Csin (Cscale (2 * INR j) (mkC 0 etap)))) n) = 0).
  { induction n as [| n IH]; [reflexivity |].
    rewrite Csum_S. cbn [re Cadd]. rewrite IH. cbn [re im Cscale Csin].
    replace (2 * INR (S n) * 0) with 0 by ring. rewrite sin_0. ring. }
  rewrite H. ring.
Qed.

Lemma series_derivative_imaginary (c : nat -> R) (N : nat) (etap : R) :
  spec_series_derivative c N (mkC 0 etap)
  = RtoC (1 + Rsum (fun j => 2 * INR j * c j * cosh (2 * INR j * etap)) N).
Proof.
  unfold spec_series_derivative.
  rewrite (Csum_real _ (fun j => 2 * INR j * c j * cosh (2 * INR j * etap))).
  - csolve.
  - intros j _. apply complex_eq; simpl.
    + replace (2 * INR j * 0) with 0 by ring. rewrite cos_0. ring.
    + replace (2 * INR j * 0) with 0 by ring. rewrite sin_0. ring.
Qed.

Lemma series_sum_origin (c : nat -> R) (N : nat) :
  spec_series_sum c N (mkC 0 0) = mkC 0 0.
Proof.
  unfold spec_series_sum. rewrite Csum_zero.
  - csolve.
  - intros j _. apply complex_eq; simpl;
      replace (2 * INR j * 0) with 0 by ring;
      rewrite ?sin_0, ?sinh_0; ring.
Qed.

Lemma series_derivative_origin (c : nat -> R) (N : nat) :
  spec_series_derivative c N (mkC 0 0)
  = RtoC (1 + Rsum (fun j => 2 * INR j * c j) N).
Proof.
  rewrite series_derivative_imaginary. f_equal. f_equal.
  apply Rsum_ext. intros j _.
  replace (2 * INR j * 0) with 0 by ring. rewrite cosh_0. ring.
Qed.

Lemma cos_nat_PI (j : nat) : cos (INR j * PI) = (-1) ^ j.
Proof.
  induction j as [| j IH].
  - simpl. rewrite Rmult_0_l. apply cos_0.
  - rewrite S_INR.
    replace ((INR j + 1) * PI) with (INR j * PI + PI) by ring.
    rewrite neg_cos, IH. simpl. ring.
Qed.

Lemma series_derivative_pole (c : nat -> R) (N : nat) :
  spec_series_derivative c N (mkC (PI / 2) 0)
  = RtoC (derivative_at_pole c N).
Proof.
  unfold spec_series_derivative, derivative_at_pole.
  rewrite (Csum_real _ (fun j => 2 * INR j * c j * (-1) ^ j)).
  - csolve.
  - intros j _. apply complex_eq; cbn [re im Cscale Ccos RtoC];
      replace (2 * INR j * (PI / 2)) with (INR j * PI) by field;
      replace (2 * INR j * 0) with 0 by ring;
      rewrite ?cos_nat_PI, ?sin_nat_PI, ?cosh_0, ?sinh_0; ring.
Qed.

Lemma cos_deg_pos (x : R) : -90 < x < 90 -> 0 < cos (x * (PI / 180)).
Proof.
  intros H. pose proof PI_RGT_0 as Hpi. apply cos_gt_0; nra.
Qed.

(* ------------------------------------------------------------------ *)
(** ** [Forward] at the pole, at the origin and on the equator         *)
(* ------------------------------------------------------------------ *)

Section ForwardPoints.

Variable M : MathLib.
Variable X : ExactEngine.
Variable ord : Order.
Variable tm : TransverseMercator X.

Hypothesis series_engine_used : _exact X tm = false.

Let N : nat := Z.to_nat (maxpow_ ord).

(** [sg] is the sign of the latitude: the normalized latitude is
    [sg * 90]. *)
Lemma Forward_pole (lon0 lat lon : R) (sg : Z) :
  sg = 1%Z \/ sg = (-1)%Z ->
  LatFix M lat = IZR sg * qd ->
  exists gamma,
    Forward M X ord tm lon0 lat lon
    = Some (0,
            _a1 X tm * _k0 X tm * (PI / 2) * IZR sg,
            gamma,
            _c X tm
            * (_b1 X tm
               * Rabs (derivative_at_pole (coeff_of (_alp X tm)) N))
            * _k0 X tm).
Proof.
  intros Hsg Hlat.
  unfold Forward. rewrite series_engine_used. cbv zeta. rewrite Hlat.
  assert (Hs : (if signbit (IZR sg * qd) then (-1)%Z else 1%Z) = sg).
  { destruct Hsg; subst sg; unfold qd.
    - rewrite signbit_false by lra. reflexivity.
    - rewrite signbit_true by lra. reflexivity. }
  rewrite Hs.
  assert (Hq : IZR sg * qd * IZR sg = qd) by (destruct Hsg; subst sg; ring).
  rewrite Hq.
  rewrite (Reqb_false qd 0) by (unfold qd; lra).
  rewrite (Reqb_true qd qd) by reflexivity.
  assert (Hsame : forall b : bool, (if b then sg else sg) = sg)
    by (intros []; reflexivity).
  rewrite Hsame.
  unfold sincosd. cbn [negb].
  rewrite Forward_series_spec, series_sum_pole, series_derivative_pole.
  fold N. rewrite Cabs_real. cbn [re im].
  eexists. f_equal. f_equal. f_equal. f_equal.
  - ring.
  - destruct (Rgtb _ _); field.
Qed.

(** Latitude 0 on the central meridian. *)
Lemma Forward_origin (lon0 lat lon : R) :
  LatFix M lat = 0 ->
  AngDiff M lon0 lon = 0 ->
  taupf M 0 (_es X tm) = 0 ->
  AngNormalize M 0 = 0 ->
  _e2m X tm + _e2 X tm = 1 ->
  let d := derivative_at_origin (coeff_of (_alp X tm)) N in
  exists gamma,
    Forward M X ord tm lon0 lat lon
    = Some (0, 0, gamma, _b1 X tm * Rabs d * _k0 X tm)
    /\ (0 <= d -> gamma = 0).
Proof.
  intros Hlat Hlon Htaup Hnorm He2 d.
  unfold Forward. rewrite series_engine_used. cbv zeta. rewrite Hlat, Hlon.
  rewrite (signbit_false 0) by lra.
  replace (0 * IZR 1) with 0 by ring.
  rewrite (Rgtb_false 0 qd) by (unfold qd; lra).
  rewrite (Reqb_false 0 qd) by (unfold qd; lra).
  unfold sincosd. cbn [negb].
  replace (0 * (PI / 180)) with 0 by ring.
  rewrite sin_0, cos_0.
  replace (0 / 1) with 0 by field.
  rewrite Htaup.
  rewrite (atan2_0_nonneg 1) by lra.
  rewrite (hypot_0_l 1) by lra.
  replace (0 / 1) with 0 by field.
  unfold asinh. rewrite arcsinh_0.
  rewrite Forward_series_spec, series_sum_origin, series_derivative_origin.
  fold N. fold (derivative_at_origin (coeff_of (_alp X tm)) N). fold d.
  cbn [re im RtoC]. rewrite Cabs_real.
  eexists. split.
  - f_equal. f_equal. f_equal. f_equal.
    + ring.
    + ring.
    + rewrite hypot_1_0. unfold sq.
      replace (_e2m X tm + _e2 X tm * (1 * 1))
        with (_e2m X tm + _e2 X tm) by ring.
      rewrite He2, sqrt_1. field.
  - intros Hd. rewrite hypot_1_0.
    replace (0 * 0) with 0 by ring. replace (1 * 1) with 1 by ring.
    rewrite (atan2d_0_nonneg 1) by lra.
    rewrite (atan2d_0_nonneg d) by exact Hd.
    replace ((0 - 0) * IZR (1 * 1)) with 0 by (simpl; ring).
    exact Hnorm.
Qed.

(** Latitude 0 on the back side: the longitude difference, in absolute
    value, is above 90 and at most 180. *)
Lemma Forward_equator_backside (lon0 lat lon : R) :
  LatFix M lat = 0 ->
  taupf M 0 (_es X tm) = 0 ->
  qd < Rabs (AngDiff M lon0 lon) <= hd ->
  let lonsign := if signbit (AngDiff M lon0 lon) then (-1)%Z else 1%Z in
  let lam := (hd - Rabs (AngDiff M lon0 lon)) * (PI / 180) in
  let etap := asinh (sin lam / hypot 0 (cos lam)) in
  let d := derivative_on_equator (coeff_of (_alp X tm)) N etap in
  exists x gamma k,
    Forward M X ord tm lon0 lat lon
    = Some (x, - (_a1 X tm * _k0 X tm * PI), gamma, k)
    /\ (0 <= d -> gamma = AngNormalize M (hd * IZR (-1 * lonsign))).
Proof.
  intros Hlat Htaup Hdl lonsign lam etap d.
  unfold Forward. rewrite series_engine_used. cbv zeta. rewrite Hlat.
  fold lonsign.
  assert (Habs : AngDiff M lon0 lon * IZR lonsign
                 = Rabs (AngDiff M lon0 lon)).
  { unfold lonsign, signbit, Rabs.
    destruct (Rlt_dec _ 0), (Rcase_abs _); try lra; simpl; ring. }
  rewrite Habs.
  rewrite (signbit_false 0) by lra.
  replace (0 * IZR 1) with 0 by ring.
  rewrite (Rgtb_true _ qd) by apply Hdl.
  rewrite (Reqb_true 0 0) by reflexivity.
  rewrite (Reqb_false 0 qd) by (unfold qd; lra).
  unfold sincosd. cbn [negb].
  fold lam.
  replace (0 * (PI / 180)) with 0 by ring.
  rewrite sin_0, cos_0.
  replace (0 / 1) with 0 by field.
  rewrite Htaup.
  assert (Hc : 0 < cos lam).
  { unfold lam. apply cos_deg_pos. unfold hd, qd in *. lra. }
  rewrite (atan2_0_nonneg (cos lam)) by lra.
  fold etap.
  rewrite Forward_series_spec, series_derivative_imaginary.
  fold N. fold (derivative_on_equator (coeff_of (_alp X tm)) N etap).
  fold d. cbn [re im RtoC]. rewrite series_sum_imaginary.
  do 3 eexists. split.
  - f_equal. f_equal. f_equal. f_equal. ring.
  - intros Hd. rewrite hypot_1_0.
    replace (sin lam * 0) with 0 by ring.
    rewrite (atan2d_0_nonneg (cos lam * 1)) by lra.
    rewrite (atan2d_0_nonneg d) by exact Hd.
    f_equal. ring.
Qed.

End ForwardPoints.

(* ------------------------------------------------------------------ *)
(** ** The reference instance meets the contract                       *)
(* ------------------------------------------------------------------ *)

Lemma ref_LatFix_id (x : R) : - qd <= x <= qd -> ref_LatFix x = x.
Proof.
  intros H. unfold ref_LatFix, Rmax, Rmin, qd in *.
  destruct (Rle_dec 90 x); destruct (Rle_dec _ _); lra.
Qed.

Lemma ref_AngNormalize_small (x : R) :
  - hd < x < hd -> ref_AngNormalize x = x.
Proof.
  intros H. unfold ref_AngNormalize, hd, td in *.
  rewrite (Zfloor_eq 0) by (simpl; lra).
  replace (x - 360 * 0) with x by ring.
  rewrite Reqb_false by lra. reflexivity.
Qed.

Lemma ref_AngNormalize_hd : ref_AngNormalize hd = hd.
Proof.
  unfold ref_AngNormalize, hd, td.
  rewrite (Zfloor_eq 1) by (simpl; lra).
  rewrite Reqb_true by (simpl; lra).
  destruct (Rlt_dec 0 180); [reflexivity | lra].
Qed.

Lemma ref_AngNormalize_odd (x : R) :
  ref_AngNormalize (- x) = - ref_AngNormalize x.
Proof.
  unfold ref_AngNormalize, hd, td.
  pose proof (Zfloor_bound ((x + 180) / 360)) as Hq.
  set (q := Zfloor ((x + 180) / 360)) in *.
  assert (Hq' : 360 * IZR q <= x + 180 < 360 * IZR q + 360) by lra.
  destruct (Req_dec_T (x - 360 * IZR q) (-180)) as [Hb | Hb].
  - (* the reduced angle is on the boundary *)
    assert (Hfl : Zfloor ((- x + 180) / 360) = (1 - q)%Z).
    { apply Zfloor_eq. rewrite minus_IZR. simpl. lra. }
    rewrite Hfl, minus_IZR.
    rewrite (Reqb_true (x - 360 * IZR q)) by exact Hb.
    rewrite (Reqb_true (- x - 360 * (1 - IZR q))) by lra.
    assert (Hx : x <> 0).
    { intros ->. assert (H2 : IZR q * 2 = 1) by lra.
      rewrite <- mult_IZR in H2. apply eq_IZR in H2. lia. }
    destruct (Rlt_dec 0 (- x)), (Rlt_dec 0 x); lra.
  - assert (Hfl : Zfloor ((- x + 180) / 360) = (- q)%Z).
    { apply Zfloor_eq. rewrite opp_IZR. lra. }
    rewrite Hfl, opp_IZR.
    rewrite (Reqb_false (x - 360 * IZR q)) by exact Hb.
    rewrite (Reqb_false (- x - 360 * - IZR q)) by lra.
    ring.
Qed.

Lemma atanh_0 : atanh 0 = 0.
Proof.
  unfold atanh. replace ((1 + 0) / (1 - 0)) with 1 by field.
  rewrite ln_1. field.
Qed.

Lemma ref_eatanhe_0 (es : R) : ref_eatanhe 0 es = 0.
Proof.
  unfold ref_eatanhe. rewrite Rmult_0_r, atanh_0, atan_0.
  destruct (Rlt_dec 0 es); ring.
Qed.

Lemma ref_taupf_0 (es : R) : ref_taupf 0 es = 0.
Proof.
  unfold ref_taupf. cbv zeta. rewrite hypot_1_0.
  replace (0 / 1) with 0 by field.
  rewrite ref_eatanhe_0, sinh_0. ring.
Qed.

Lemma RefMath_contract : MathContract RefMath.
Proof.
  constructor; simpl.
  - apply ref_LatFix_id.
  - intros x. unfold ref_AngDiff. replace (x - x) with 0 by ring.
    apply ref_AngNormalize_small. unfold hd. lra.
  - apply ref_AngNormalize_odd.
  - apply ref_taupf_0.
Qed.

(* ------------------------------------------------------------------ *)
(** ** Facts about the engines used as examples                        *)
(* ------------------------------------------------------------------ *)

Section SeriesEngine.

Variable M : MathLib.
Variable X : ExactEngine.
Variable ord : Order.
Variables a f k0 : R.

Lemma series_engine_exact : _exact X (series_engine M X ord a f k0) = false.
Proof.
  unfold series_engine.
  rewrite (proj1 (generate_keeps X ord _)). reflexivity.
Qed.

Lemma series_engine_k0 : _k0 X (series_engine M X ord a f k0) = k0.
Proof.
  unfold series_engine.
  rewrite (proj1 (proj2 (generate_keeps X ord _))). reflexivity.
Qed.

Lemma series_engine_e2 :
  _e2m X (series_engine M X ord a f k0) + _e2 X (series_engine M X ord a f k0)
  = 1.
Proof.
  unfold series_engine.
  destruct (generate_keeps X ord (initialise M X ord a f k0 false
                                    (TMExact_default X)))
    as (_ & _ & He2 & He2m & _).
  rewrite He2, He2m. cbn [initialise _e2 _e2m]. ring.
Qed.

Lemma series_engine_c :
  _c X (series_engine M X ord a f k0)
  = sqrt (1 - f * (2 - f))
    * exp (eatanhe M 1 ((if Rlt_dec f 0 then -1 else 1)
                        * sqrt (fabs (f * (2 - f))))).
Proof.
  unfold series_engine.
  destruct (generate_keeps X ord (initialise M X ord a f k0 false
                                    (TMExact_default X)))
    as (_ & _ & _ & _ & _ & Hc & _).
  rewrite Hc. reflexivity.
Qed.

End SeriesEngine.

(** On a sphere every [_alp[j]] is 0, so the derivative series is 1. *)
Lemma sphere_derivative_at_origin (M : MathLib) (X : ExactEngine)
  (ord : Order) (a k0 : R) :
  derivative_at_origin (coeff_of (_alp X (series_engine M X ord a 0 k0)))
                       (Z.to_nat (maxpow_ ord)) = 1.
Proof.
  unfold derivative_at_origin. destruct ord; rcompute; lra.
Qed.

Lemma sphere_derivative_at_pole (M : MathLib) (X : ExactEngine)
  (ord : Order) (a k0 : R) :
  derivative_at_pole (coeff_of (_alp X (series_engine M X ord a 0 k0)))
                     (Z.to_nat (maxpow_ ord)) = 1.
Proof.
  unfold derivative_at_pole. destruct ord; rcompute; lra.
Qed.

Lemma SF2R_one : SF2R SF_one = 1.
Proof. unfold SF2R, SF_one. simpl powerRZ. field. Qed.

Lemma SF2R_half : SF2R SF_half = 1 / 2.
Proof. unfold SF2R, SF_half. simpl powerRZ. field. Qed.

(** The two example engines are what the constructor returns for the
    binary64 arguments (1, 0, 1) and (1, 1/2, 1). *)
Lemma unit_sphere_constructed :
  TransverseMercator_new RefMath StubExact Order6
    SF_one SF_zero SF_one false false = inr unit_sphere.
Proof.
  rewrite new_series by reflexivity.
  rewrite SF2R_one. reflexivity.
Qed.

Lemma flat_ellipsoid_constructed :
  TransverseMercator_new RefMath StubExact Order6
    SF_one SF_half SF_one false false = inr flat_ellipsoid.
Proof.
  rewrite new_series by reflexivity.
  rewrite SF2R_one, SF2R_half. reflexivity.
Qed.

Lemma unit_sphere_a1_k0 :
  _a1 StubExact unit_sphere = 1 /\ _k0 StubExact unit_sphere = 1.
Proof.
  split; [apply sphere_a1 | apply series_engine_k0].
Qed.

Lemma unit_sphere_equator (etap : R) :
  derivative_on_equator (coeff_of (_alp StubExact unit_sphere)) 6 etap = 1.
Proof.
  unfold derivative_on_equator, unit_sphere.
  generalize cosh. intros ch.
  rcompute. lra.
Qed.

Lemma flat_ellipsoid_origin :
  0 < derivative_at_origin (coeff_of (_alp StubExact flat_ellipsoid)) 6
  /\ 1 < _b1 StubExact flat_ellipsoid
         * derivative_at_origin (coeff_of (_alp StubExact flat_ellipsoid)) 6.
Proof.
  unfold derivative_at_origin, flat_ellipsoid. rcompute. split; lra.
Qed.

Lemma flat_ellipsoid_pole :
  0 < derivative_at_pole (coeff_of (_alp StubExact flat_ellipsoid)) 6
  /\ 0 < _b1 StubExact flat_ellipsoid
  /\ _b1 StubExact flat_ellipsoid
     * derivative_at_pole (coeff_of (_alp StubExact flat_ellipsoid)) 6 < 1.
Proof.
  unfold derivative_at_pole, flat_ellipsoid. rcompute. repeat split; lra.
Qed.

Lemma flat_ellipsoid_c : 0 < _c StubExact flat_ellipsoid.
Proof.
  unfold flat_ellipsoid. rewrite series_engine_c.
  apply Rmult_lt_0_compat; [| apply exp_pos].
  apply sqrt_lt_R0. lra.
Qed.

(* ------------------------------------------------------------------ *)
(** ** [Forward] at the pole (C4)                                      *)
(* ------------------------------------------------------------------ *)

(** C4 (amended).  For every longitude and every central meridian,
    [Forward] at latitude exactly 90 (or -90) returns x = 0 and
    y = a1 k0 pi/2 with the sign of the latitude, and
    k = c b1 |1 + sum_j 2 j alp[j] (-1)^j| k0: the scale [c] of the pole is
    multiplied by [b1] and by the modulus of the derivative series at
    zeta' = pi/2 before it is multiplied by [k0].  None of x, y, k depends
    on the longitude.  On a sphere that factor is 1 and k = c k0. *)
Theorem C4_forward_at_pole :
  forall (M : MathLib) (X : ExactEngine) (ord : Order)
         (tm : TransverseMercator X) (lon0 lon : R),
    MathContract M ->
    _exact X tm = false ->
    let D := derivative_at_pole (coeff_of (_alp X tm))
                                (Z.to_nat (maxpow_ ord)) in
    let k := _c X tm * (_b1 X tm * Rabs D) * _k0 X tm in
    (exists gamma,
        Forward M X ord tm lon0 90 lon
        = Some (0, _a1 X tm * _k0 X tm * (PI / 2), gamma, k))
    /\ (exists gamma,
           Forward M X ord tm lon0 (-90) lon
           = Some (0, - (_a1 X tm * _k0 X tm * (PI / 2)), gamma, k))
    /\ (forall a k0, tm = series_engine M X ord a 0 k0 ->
        k = _c X tm * _k0 X tm).
Proof.
  intros M X ord tm lon0 lon HM Hex D k. split; [| split].
  - destruct (Forward_pole M X ord tm Hex lon0 90 lon 1) as [g Hg];
      [left; reflexivity
      | rewrite (LatFix_id M HM) by (unfold qd; lra); unfold qd; ring |].
    exists g. rewrite Hg. apply f_equal; repeat apply (f_equal2 pair);
      try reflexivity; ring.
  - destruct (Forward_pole M X ord tm Hex lon0 (-90) lon (-1)) as [g Hg];
      [right; reflexivity
      | rewrite (LatFix_id M HM) by (unfold qd; lra); unfold qd; ring |].
    exists g. rewrite Hg. apply f_equal; repeat apply (f_equal2 pair);
      try reflexivity; ring.
  - intros a k0 ->. unfold k, D.
    rewrite sphere_derivative_at_pole, sphere_b1, Rabs_R1. ring.
Qed.

Lemma C4_forward_at_pole_witness :
  (exists gamma,
      Forward RefMath StubExact Order6 unit_sphere 0 90 0
      = Some (0,
              _a1 StubExact unit_sphere * _k0 StubExact unit_sphere
              * (PI / 2),
              gamma,
              _c StubExact unit_sphere
              * (_b1 StubExact unit_sphere
                 * Rabs (derivative_at_pole
                           (coeff_of (_alp StubExact unit_sphere))
                           (Z.to_nat (maxpow_ Order6))))
              * _k0 StubExact unit_sphere))
  /\ _c StubExact unit_sphere
     * (_b1 StubExact unit_sphere
        * Rabs (derivative_at_pole
                  (coeff_of (_alp StubExact unit_sphere))
                  (Z.to_nat (maxpow_ Order6))))
     * _k0 StubExact unit_sphere
     = _c StubExact unit_sphere * _k0 StubExact unit_sphere.
Proof.
  destruct (C4_forward_at_pole RefMath StubExact Order6 unit_sphere 0 0
              RefMath_contract
              (series_engine_exact RefMath StubExact Order6 1 0 1))
    as (Hnorth & _ & Hsphere).
  split; [exact Hnorth | exact (Hsphere 1 1 eq_refl)].
Defined.

(** C4 as stated fails: on the ellipsoid of flattening 1/2 the scale
    returned at the pole is not c k0. *)
Lemma C4_scale_at_pole_is_not_c_k0 :
  exists x y gamma k,
    Forward RefMath StubExact Order6 flat_ellipsoid 0 90 0
    = Some (x, y, gamma, k)
    /\ k <> _c StubExact flat_ellipsoid * _k0 StubExact flat_ellipsoid.
Proof.
  destruct (Forward_pole RefMath StubExact Order6 flat_ellipsoid
              (series_engine_exact RefMath StubExact Order6 1 (1 / 2) 1)
              0 90 0 1) as [g Hg];
    [left; reflexivity
    | rewrite (LatFix_id RefMath RefMath_contract) by (unfold qd; lra);
      unfold qd; ring |].
  do 4 eexists. split; [exact Hg |].
  change (Z.to_nat (maxpow_ Order6)) with 6%nat.
  destruct flat_ellipsoid_pole as (HD & Hb1 & Hlt).
  pose proof flat_ellipsoid_c as Hc.
  rewrite (Rabs_pos_eq _ (Rlt_le _ _ HD)).
  assert (Hk0 : _k0 StubExact flat_ellipsoid = 1)
    by apply series_engine_k0.
  rewrite Hk0. nra.
Qed.

(* ------------------------------------------------------------------ *)
(** ** [Forward] at the origin (C5)                                    *)
(* ------------------------------------------------------------------ *)

(** C5 (amended).  On every configured series engine, [Forward] at
    latitude 0 with the longitude equal to the central meridian returns
    x = 0, y = 0 and k = k0 b1 |d|, where d = 1 + sum_j 2 j alp[j] is the
    derivative series at zeta' = 0; the convergence is 0 when d is not
    negative.  b1 d is 1 only up to the truncation of the series; on a
    sphere it is 1 and the result is (0, 0, 0, k0). *)
Theorem C5_forward_at_origin :
  forall (M : MathLib) (X : ExactEngine) (ord : Order)
         (a f k0 lon0 : R),
    MathContract M ->
    let tm := series_engine M X ord a f k0 in
    let d := derivative_at_origin (coeff_of (_alp X tm))
                                  (Z.to_nat (maxpow_ ord)) in
    exists gamma,
      Forward M X ord tm lon0 0 lon0
      = Some (0, 0, gamma, _b1 X tm * Rabs d * k0)
      /\ (0 <= d -> gamma = 0)
      /\ (f = 0 -> gamma = 0 /\ _b1 X tm * Rabs d * k0 = k0).
Proof.
  intros M X ord a f k0 lon0 HM tm d.
  assert (Hnorm : AngNormalize M 0 = 0).
  { pose proof (AngNormalize_odd M HM 0) as H.
    rewrite Ropp_0 in H. lra. }
  destruct (Forward_origin M X ord tm
              (series_engine_exact M X ord a f k0) lon0 0 lon0)
    as [g [Hg Hgamma]].
  - apply (LatFix_id M HM). unfold qd. lra.
  - apply (AngDiff_self M HM).
  - apply (taupf_0 M HM).
  - exact Hnorm.
  - apply series_engine_e2.
  - exists g. split; [| split; [exact Hgamma |]].
    + rewrite Hg. unfold tm. rewrite series_engine_k0. reflexivity.
    + intros ->.
      assert (Hd : d = 1) by apply sphere_derivative_at_origin.
      split.
      * apply Hgamma. fold d. lra.
      * rewrite Hd. unfold tm. rewrite sphere_b1, Rabs_R1. ring.
Qed.

Lemma C5_forward_at_origin_witness :
  exists gamma,
    Forward RefMath StubExact Order6 unit_sphere 0 0 0
    = Some (0, 0, gamma,
            _b1 StubExact unit_sphere
            * Rabs (derivative_at_origin
                      (coeff_of (_alp StubExact unit_sphere))
                      (Z.to_nat (maxpow_ Order6)))
            * 1)
    /\ gamma = 0.
Proof.
  destruct (C5_forward_at_origin RefMath StubExact Order6 1 0 1 0
              RefMath_contract) as (g & Hrun & _ & Hsphere).
  exists g. split; [exact Hrun | apply Hsphere; reflexivity].
Defined.

(** C5 as stated fails: on the ellipsoid of flattening 1/2 the scale
    returned at the origin is not k0. *)
Lemma C5_scale_at_origin_is_not_k0 :
  exists x y gamma k,
    Forward RefMath StubExact Order6 flat_ellipsoid 0 0 0
    = Some (x, y, gamma, k)
    /\ k <> _k0 StubExact flat_ellipsoid.
Proof.
  destruct (Forward_origin RefMath StubExact Order6 flat_ellipsoid
              (series_engine_exact RefMath StubExact Order6 1 (1 / 2) 1)
              0 0 0) as [g [Hg _]].
  - apply (LatFix_id RefMath RefMath_contract). unfold qd. lra.
  - apply (AngDiff_self RefMath RefMath_contract).
  - apply (taupf_0 RefMath RefMath_contract).
  - apply ref_AngNormalize_small. unfold hd. lra.
  - apply series_engine_e2.
  - do 4 eexists. split; [exact Hg |].
    change (Z.to_nat (maxpow_ Order6)) with 6%nat.
    destruct flat_ellipsoid_origin as (Hd & Hgt).
    rewrite (Rabs_pos_eq _ (Rlt_le _ _ Hd)).
    assert (Hk0 : _k0 StubExact flat_ellipsoid = 1)
      by apply series_engine_k0.
    rewrite Hk0. lra.
Qed.

(* ------------------------------------------------------------------ *)
(** ** Mirror symmetry of [Forward] (C6)                               *)
(* ------------------------------------------------------------------ *)

(** [Forward] is [Forward_z] where no zero is negative. *)
Lemma signbit_z_signbit (z : bool) (x : R) :
  x <> 0 \/ z = false -> signbit_z z x = signbit x.
Proof.
  unfold signbit_z, Reqb.
  destruct (Req_dec_T x 0) as [-> | Hx]; [| reflexivity].
  intros [H | ->]; [contradiction |].
  symmetry. apply signbit_false. lra.
Qed.

Lemma Forward_z_Forward (M : MathLib) (X : ExactEngine) (ord : Order)
  (zlat zlon : bool) (tm : TransverseMercator X) (lon0 lat lon : R) :
  LatFix M lat <> 0 \/ zlat = false ->
  AngDiff M lon0 lon <> 0 \/ zlon = false ->
  Forward_z M X ord zlat zlon tm lon0 lat lon
  = Forward M X ord tm lon0 lat lon.
Proof.
  intros Hlat Hlon. unfold Forward_z, Forward.
  rewrite (signbit_z_signbit zlat _ Hlat), (signbit_z_signbit zlon _ Hlon).
  reflexivity.
Qed.

(** Negating a binary64 value flips its sign bit, also when the value is
    a zero. *)
Lemma signbit_z_opp (z : bool) (x : R) :
  signbit_z (negb z) (- x) = negb (signbit_z z x).
Proof.
  unfold signbit_z, Reqb, signbit.
  destruct (Req_dec_T x 0) as [-> | Hx].
  - rewrite Ropp_0. destruct (Req_dec_T 0 0); [reflexivity | lra].
  - destruct (Req_dec_T (- x) 0); [lra |].
    destruct (Rlt_dec x 0), (Rlt_dec (- x) 0); try reflexivity; lra.
Qed.

Lemma signbit_z_abs (z : bool) (x : R) :
  x * IZR (if signbit_z z x then (-1)%Z else 1%Z) = Rabs x.
Proof.
  unfold signbit_z, Reqb, signbit, Rabs.
  destruct (Req_dec_T x 0) as [-> | Hx].
  - destruct (Rcase_abs 0); [lra | ring].
  - destruct (Rlt_dec x 0), (Rcase_abs x); try lra; simpl; ring.
Qed.

Section Mirror.

Variable M : MathLib.
Variable X : ExactEngine.
Variable ord : Order.
Variable tm : TransverseMercator X.

Hypothesis series_engine_used : _exact X tm = false.
Hypothesis normalize_odd :
  forall x, AngNormalize M (- x) = - AngNormalize M x.

Ltac finish_mirror_z :=
  rewrite Forward_series_spec;
  do 4 eexists; split; [reflexivity |];
  apply f_equal; repeat apply (f_equal2 pair);
  try reflexivity; try ring;
  try (rewrite <- normalize_odd; f_equal; rewrite !mult_IZR; ring).

(** The latitude sign is a factor of y and of gamma and of nothing else,
    unless the back side forces it. *)
Lemma Forward_z_mirror_lat (zlat zlon : bool) (lon0 lat lon : R) :
  LatFix M (- lat) = - LatFix M lat ->
  ~ (LatFix M lat = 0 /\ qd < Rabs (AngDiff M lon0 lon)) ->
  exists x y gamma k,
    Forward_z M X ord zlat zlon tm lon0 lat lon = Some (x, y, gamma, k)
    /\ Forward_z M X ord (negb zlat) zlon tm lon0 (- lat) lon
       = Some (x, - y, - gamma, k).
Proof.
  intros Hneg Hback.
  unfold Forward_z. rewrite series_engine_used. cbv zeta. rewrite Hneg.
  rewrite signbit_z_opp.
  rewrite (signbit_z_abs zlon).
  set (L := LatFix M lat) in *.
  set (D := Rabs (AngDiff M lon0 lon)) in *.
  assert (Hmag : forall b : bool,
             - L * IZR (if negb b then (-1)%Z else 1%Z)
             = L * IZR (if b then (-1)%Z else 1%Z))
    by (intros []; simpl; ring).
  rewrite Hmag.
  assert (Habs : L * IZR (if signbit_z zlat L then (-1)%Z else 1%Z)
                 = Rabs L)
    by apply signbit_z_abs.
  rewrite Habs.
  destruct (Rgtb D qd) eqn:Hb.
  - assert (HL : Rabs L <> 0).
    { intros H0. apply Hback. split.
      - destruct (Req_dec L 0) as [E | E]; [exact E |].
        apply Rabs_no_R0 in E. contradiction.
      - unfold Rgtb in Hb. destruct (Rgt_dec D qd); [lra | discriminate]. }
    rewrite (Reqb_false _ 0 HL).
    destruct (signbit_z zlat L); destruct (Reqb _ qd);
      unfold sincosd; cbn [negb]; finish_mirror_z.
  - destruct (signbit_z zlat L); destruct (Reqb _ qd);
      unfold sincosd; cbn [negb]; finish_mirror_z.
Qed.

(** The longitude sign is a factor of x and of gamma and of nothing
    else. *)
Lemma Forward_z_mirror_lon (zlat zlon : bool) (lon0 lat lon lon' : R) :
  AngDiff M lon0 lon' = - AngDiff M lon0 lon ->
  exists x y gamma k,
    Forward_z M X ord zlat zlon tm lon0 lat lon = Some (x, y, gamma, k)
    /\ Forward_z M X ord zlat (negb zlon) tm lon0 lat lon'
       = Some (- x, y, - gamma, k).
Proof.
  intros Hneg.
  unfold Forward_z. rewrite series_engine_used. cbv zeta. rewrite Hneg.
  rewrite signbit_z_opp.
  set (D := AngDiff M lon0 lon) in *.
  assert (Hmag : forall b : bool,
             - D * IZR (if negb b then (-1)%Z else 1%Z)
             = D * IZR (if b then (-1)%Z else 1%Z))
    by (intros []; simpl; ring).
  rewrite Hmag.
  destruct (signbit_z zlon D);
    destruct (Rgtb _ qd); destruct (Reqb _ qd); try destruct (Reqb _ 0);
    unfold sincosd; cbn [negb]; finish_mirror_z.
Qed.

End Mirror.

(** C6 (amended).  The signs of the latitude and of the longitude
    difference are taken with [signbit], so a zero argument carries a
    sign too: [zlat] and [zlon] are the sign bits of a zero latitude and
    of a zero longitude difference, and negating an argument flips the
    bit.  For every latitude of [-90, 90] and every longitude, except a
    latitude that is a zero on the back side (a longitude difference above
    90 in absolute value), [Forward(lon0, -lat, lon)] returns the x and k
    of [Forward(lon0, lat, lon)] with y and gamma negated.  For every
    latitude of [-90, 90] and every longitude, [Forward] at a longitude
    with the negated difference returns the same y and k with x and gamma
    negated.  Where no argument is a negative zero, [Forward_z] is
    [Forward]. *)
Theorem C6_mirror_symmetry :
  forall (M : MathLib) (X : ExactEngine) (ord : Order)
         (tm : TransverseMercator X) (zlat zlon : bool)
         (lon0 lat lon lon' : R),
    MathContract M ->
    _exact X tm = false ->
    - qd <= lat <= qd ->
    (~ (lat = 0 /\ qd < Rabs (AngDiff M lon0 lon)) ->
     exists x y gamma k,
       Forward_z M X ord zlat zlon tm lon0 lat lon = Some (x, y, gamma, k)
       /\ Forward_z M X ord (negb zlat) zlon tm lon0 (- lat) lon
          = Some (x, - y, - gamma, k))
    /\ (AngDiff M lon0 lon' = - AngDiff M lon0 lon ->
        exists x y gamma k,
          Forward_z M X ord zlat zlon tm lon0 lat lon
          = Some (x, y, gamma, k)
          /\ Forward_z M X ord zlat (negb zlon) tm lon0 lat lon'
             = Some (- x, y, - gamma, k))
    /\ ((lat <> 0 \/ zlat = false) ->
        (AngDiff M lon0 lon <> 0 \/ zlon = false) ->
        Forward_z M X ord zlat zlon tm lon0 lat lon
        = Forward M X ord tm lon0 lat lon).
Proof.
  intros M X ord tm zlat zlon lon0 lat lon lon' HM Hex Hrange.
  assert (Hfix : LatFix M lat = lat) by (apply (LatFix_id M HM); exact Hrange).
  split; [| split].
  - intros Hback.
    apply (Forward_z_mirror_lat M X ord tm Hex (AngNormalize_odd M HM)).
    + rewrite !(LatFix_id M HM) by lra. reflexivity.
    + rewrite Hfix. exact Hback.
  - intros Hneg.
    apply (Forward_z_mirror_lon M X ord tm Hex (AngNormalize_odd M HM)).
    exact Hneg.
  - intros Hlat Hlon. apply Forward_z_Forward; [| exact Hlon].
    rewrite Hfix. exact Hlat.
Qed.

Lemma ref_AngDiff_small (x : R) : - hd < x < hd -> ref_AngDiff 0 x = x.
Proof.
  intros H. unfold ref_AngDiff. rewrite Rminus_0_r.
  apply ref_AngNormalize_small, H.
Qed.

(** On the front side the mirror holds at latitude 0 as well: the two
    zeros differ in their sign bit only. *)
Lemma C6_mirror_symmetry_witness :
  (exists x y gamma k,
      Forward_z RefMath StubExact Order6 false false unit_sphere 0 0 10
      = Some (x, y, gamma, k)
      /\ Forward_z RefMath StubExact Order6 true false unit_sphere 0 (- 0) 10
         = Some (x, - y, - gamma, k))
  /\ (exists x y gamma k,
         Forward_z RefMath StubExact Order6 false false unit_sphere 0 0 10
         = Some (x, y, gamma, k)
         /\ Forward_z RefMath StubExact Order6 false true unit_sphere
              0 0 (- 10)
            = Some (- x, y, - gamma, k))
  /\ Forward_z RefMath StubExact Order6 false false unit_sphere 0 0 10
     = Forward RefMath StubExact Order6 unit_sphere 0 0 10.
Proof.
  assert (Hrange : - qd <= 0 <= qd) by (unfold qd; lra).
  pose proof (C6_mirror_symmetry RefMath StubExact Order6 unit_sphere
                false false 0 0 10 (- 10) RefMath_contract
                (series_engine_exact RefMath StubExact Order6 1 0 1)
                Hrange)
    as (Hlat & Hlon & Hsame).
  split; [| split].
  - apply Hlat. intros [_ Hback]. revert Hback.
    cbn [AngDiff RefMath].
    rewrite ref_AngDiff_small by (unfold hd; lra).
    rewrite Rabs_pos_eq by lra. unfold qd. lra.
  - apply Hlon. cbn [AngDiff RefMath].
    rewrite !ref_AngDiff_small by (unfold hd; lra). reflexivity.
  - apply Hsame; right; reflexivity.
Defined.

Lemma ref_AngDiff_hd : ref_AngDiff 0 hd = hd.
Proof.
  unfold ref_AngDiff. rewrite Rminus_0_r. apply ref_AngNormalize_hd.
Qed.

Lemma ref_AngDiff_minus_hd : ref_AngDiff 0 (- hd) = - hd.
Proof.
  unfold ref_AngDiff. rewrite Rminus_0_r, ref_AngNormalize_odd.
  rewrite ref_AngNormalize_hd. reflexivity.
Qed.

(** The northing [Forward] returns on the unit sphere for latitude 0 and a
    longitude difference of 180 or -180. *)
Lemma unit_sphere_equator_backside (lon : R) :
  lon = hd \/ lon = - hd ->
  exists x gamma k,
    Forward RefMath StubExact Order6 unit_sphere 0 0 lon
    = Some (x, - PI, gamma, k)
    /\ gamma = ref_AngNormalize
                 (hd * IZR (-1 * (if signbit (ref_AngDiff 0 lon)
                                  then (-1)%Z else 1%Z))).
Proof.
  intros Hlon.
  assert (Habs : Rabs (AngDiff RefMath 0 lon) = hd).
  { cbn [AngDiff RefMath]. destruct Hlon; subst lon.
    - rewrite ref_AngDiff_hd. apply Rabs_pos_eq. unfold hd. lra.
    - rewrite ref_AngDiff_minus_hd, Rabs_Ropp.
      apply Rabs_pos_eq. unfold hd. lra. }
  destruct (Forward_equator_backside RefMath StubExact Order6 unit_sphere
              (series_engine_exact RefMath StubExact Order6 1 0 1)
              0 0 lon) as (x & g & k & Hrun & Hg).
  - apply (LatFix_id RefMath RefMath_contract). unfold qd. lra.
  - apply (taupf_0 RefMath RefMath_contract).
  - rewrite Habs. unfold qd, hd. lra.
  - exists x, g, k. split.
    + rewrite Hrun. destruct unit_sphere_a1_k0 as [-> ->].
      apply f_equal; repeat apply (f_equal2 pair); try reflexivity; ring.
    + apply Hg. change (Z.to_nat (maxpow_ Order6)) with 6%nat.
      rewrite unit_sphere_equator. lra.
Qed.

(** C6 as stated fails: on the unit sphere, at latitude 0 and longitude
    difference 180, negating the latitude does not negate the northing. *)
Lemma C6_equator_backside_not_mirrored :
  exists x y gamma k x' y' gamma' k',
    Forward RefMath StubExact Order6 unit_sphere 0 0 hd
    = Some (x, y, gamma, k)
    /\ Forward RefMath StubExact Order6 unit_sphere 0 (- 0) hd
       = Some (x', y', gamma', k')
    /\ y' <> - y.
Proof.
  destruct (unit_sphere_equator_backside hd (or_introl eq_refl))
    as (x & g & k & Hrun & _).
  exists x, (- PI), g, k, x, (- PI), g, k.
  rewrite Ropp_0. repeat split; try exact Hrun.
  pose proof PI_RGT_0. lra.
Qed.

(* ------------------------------------------------------------------ *)
(** ** The equator on the back side (C10)                              *)
(* ------------------------------------------------------------------ *)

(** C10 (amended).  In [Forward], when the normalized latitude is exactly
    0 and the longitude difference exceeds 90 in absolute value (the back
    side), the latitude sign is forced to -1: the returned northing is
    y = - pi a1 k0, and, when the derivative series is not negative there,
    the returned convergence is the normalized half turn with the sign
    opposite to that of the longitude difference. *)
Theorem C10_equator_backside :
  forall (M : MathLib) (X : ExactEngine) (ord : Order)
         (tm : TransverseMercator X) (lon0 lat lon : R),
    MathContract M ->
    _exact X tm = false ->
    LatFix M lat = 0 ->
    qd < Rabs (AngDiff M lon0 lon) <= hd ->
    let lonsign := if signbit (AngDiff M lon0 lon) then (-1)%Z else 1%Z in
    let lam := (hd - Rabs (AngDiff M lon0 lon)) * (PI / 180) in
    let etap := asinh (sin lam / hypot 0 (cos lam)) in
    let d := derivative_on_equator (coeff_of (_alp X tm))
                                   (Z.to_nat (maxpow_ ord)) etap in
    exists x gamma k,
      Forward M X ord tm lon0 lat lon
      = Some (x, - (_a1 X tm * _k0 X tm * PI), gamma, k)
      /\ (0 <= d -> gamma = - (IZR lonsign * AngNormalize M hd)).
Proof.
  intros M X ord tm lon0 lat lon HM Hex Hlat Hdl lonsign lam etap d.
  destruct (Forward_equator_backside M X ord tm Hex lon0 lat lon
              Hlat (taupf_0 M HM _) Hdl) as (x & g & k & Hrun & Hg).
  exists x, g, k. split; [exact Hrun |].
  intros Hd. rewrite (Hg Hd). fold lonsign.
  unfold lonsign. destruct (signbit (AngDiff M lon0 lon)).
  - replace (hd * IZR (-1 * -1)) with hd by (simpl; ring). ring.
  - replace (hd * IZR (-1 * 1)) with (- hd) by (simpl; ring).
    rewrite (AngNormalize_odd M HM). ring.
Qed.

Lemma C10_equator_backside_witness :
  exists x gamma k,
    Forward RefMath StubExact Order6 unit_sphere 0 0 hd
    = Some (x,
            - (_a1 StubExact unit_sphere * _k0 StubExact unit_sphere * PI),
            gamma, k).
Proof.
  assert (Hdl : qd < Rabs (AngDiff RefMath 0 hd) <= hd).
  { cbn [AngDiff RefMath]. rewrite ref_AngDiff_hd.
    rewrite Rabs_pos_eq; unfold qd, hd; lra. }
  destruct (C10_equator_backside RefMath StubExact Order6 unit_sphere
              0 0 hd RefMath_contract
              (series_engine_exact RefMath StubExact Order6 1 0 1)
              (LatFix_id RefMath RefMath_contract 0
                 ltac:(unfold qd; lra))
              Hdl) as (x & g & k & Hrun & _).
  exists x, g, k. exact Hrun.
Defined.

(** C10 as stated fails: on the unit sphere, at latitude 0 and longitude
    difference -180, the northing is -pi, not a zero, and the convergence
    is +180, not negative. *)
Lemma C10_northing_not_zero_convergence_positive :
  exists x y gamma k,
    Forward RefMath StubExact Order6 unit_sphere 0 0 (- hd)
    = Some (x, y, gamma, k)
    /\ y = - PI /\ y <> 0 /\ gamma = hd /\ 0 < gamma.
Proof.
  destruct (unit_sphere_equator_backside (- hd) (or_intror eq_refl))
    as (x & g & k & Hrun & Hg).
  exists x, (- PI), g, k. split; [exact Hrun |].
  assert (Hgamma : g = hd).
  { rewrite Hg, ref_AngDiff_minus_hd.
    rewrite signbit_true by (unfold hd; lra).
    replace (hd * IZR (-1 * -1)) with hd by (simpl; ring).
    apply ref_AngNormalize_hd. }
  pose proof PI_RGT_0.
  repeat split; try lra; rewrite ?Hgamma; unfold hd; lra.
Qed.

(* ================================================================== *)
(** * Part III: further properties of the code                         *)
(* ================================================================== *)

(* ------------------------------------------------------------------ *)
(** ** The coefficient tables and the loop that reads them             *)
(* ------------------------------------------------------------------ *)

Lemma coeff_loop_offset (ord : Order) (n : R) (upto : nat) :
  loop_offset (coeff_loop ord n upto)
  = fold_left (fun o l => (o + (maxpow_ ord - l) + 2)%Z)
              (map Z.of_nat (seq 1 upto)) 0%Z.
Proof.
  unfold coeff_loop.
  generalize (repeat 0 (Z.to_nat (maxpow_ ord + 1))) at 1.
  generalize (repeat 0 (Z.to_nat (maxpow_ ord + 1))).
  generalize n at 2. generalize 0%Z. generalize 1%nat.
  induction upto as [| u IH]; intros s o d l1 l2; [reflexivity |].
  simpl seq. simpl map. simpl fold_left. apply IH.
Qed.

(** The arrays of a series engine are those of the final state of the
    coefficient loop. *)
Lemma series_engine_arrays (M : MathLib) (X : ExactEngine) (ord : Order)
  (a f k0 : R) :
  let st := coeff_loop ord (f / (2 - f)) (Z.to_nat (maxpow_ ord)) in
  _alp X (series_engine M X ord a f k0) = loop_alp st
  /\ _bet X (series_engine M X ord a f k0) = loop_bet st.
Proof.
  unfold series_engine, generate, coeff_loop.
  cbn [initialise _n _alp _bet].
  destruct (fold_left _ _ _) as [[[o d] alp] bet]. split; reflexivity.
Qed.

(** X1.  The sizes of the coefficient tables are the ones the constructor
    asserts at compile time, for each order 4..8: [maxpow_/2 + 2] entries
    for [b1coeff] and [maxpow_ (maxpow_ + 3) / 2] for [alpcoeff] and
    [betcoeff].  The arrays of a series engine are those of the final
    state of the coefficient loop.  In every turn [l] of that loop the
    offset [o] is not negative and the last entry read, at index
    [o + m + 1] with [m = maxpow_ - l], lies inside the tables; and when
    the loop ends [o] is the size of the tables (the post-condition the
    source states in a comment). *)
Theorem X1_coefficient_tables_fit_the_loop :
  forall ord : Order,
    Z.of_nat (List.length (b1coeff ord)) = (Z.quot (maxpow_ ord) 2 + 2)%Z
    /\ Z.of_nat (List.length (alpcoeff ord))
       = Z.quot (maxpow_ ord * (maxpow_ ord + 3)) 2
    /\ Z.of_nat (List.length (betcoeff ord))
       = Z.quot (maxpow_ ord * (maxpow_ ord + 3)) 2
    /\ (forall (M : MathLib) (X : ExactEngine) (a f k0 : R),
          let st := coeff_loop ord (f / (2 - f)) (Z.to_nat (maxpow_ ord)) in
          _alp X (series_engine M X ord a f k0) = loop_alp st
          /\ _bet X (series_engine M X ord a f k0) = loop_bet st)
    /\ (forall (n : R) (l : nat),
          (1 <= l <= Z.to_nat (maxpow_ ord))%nat ->
          let o := loop_offset (coeff_loop ord n (l - 1)) in
          (0 <= o)%Z
          /\ (o + (maxpow_ ord - Z.of_nat l) + 1
              < Z.of_nat (List.length (alpcoeff ord)))%Z)
    /\ (forall n : R,
          loop_offset (coeff_loop ord n (Z.to_nat (maxpow_ ord)))
          = Z.of_nat (List.length (alpcoeff ord))).
Proof.
  intros ord.
  split; [destruct ord; reflexivity |].
  split; [destruct ord; reflexivity |].
  split; [destruct ord; reflexivity |].
  split; [intros M X a f k0; apply series_engine_arrays |].
  split.
  - intros n l Hl o. subst o. rewrite coeff_loop_offset.
    destruct ord; cbn in Hl;
      do 9 (destruct l as [| l]; [try lia; vm_compute; split; congruence |]);
      lia.
  - intros n. rewrite coeff_loop_offset. destruct ord; reflexivity.
Qed.

Lemma X1_coefficient_tables_fit_the_loop_witness :
  (0 <= loop_offset (coeff_loop Order6 0 (3 - 1)))%Z
  /\ (loop_offset (coeff_loop Order6 0 (3 - 1))
      + (maxpow_ Order6 - Z.of_nat 3) + 1
      < Z.of_nat (List.length (alpcoeff Order6)))%Z.
Proof.
  apply (proj1 (proj2 (proj2 (proj2 (proj2
           (X1_coefficient_tables_fit_the_loop Order6))))) 0 3%nat).
  cbn. lia.
Defined.

(** X2.  The arrays [_alp] and [_bet] of a series engine have
    [maxpow_ + 1] slots, and for every [l] from 1 to [maxpow_] slot [l]
    holds [n^l p(n) / q], where [p] is the polynomial of degree
    [maxpow_ - l] stored in the table at the offset of the turn [l] and
    [q] the table entry after it: the running power [d] of the loop is
    [n^l], and no turn overwrites the slot of another. *)
Theorem X2_coefficient_slots :
  forall (M : MathLib) (X : ExactEngine) (ord : Order) (a f k0 : R)
         (l : nat),
    (1 <= l <= Z.to_nat (maxpow_ ord))%nat ->
    let tm := series_engine M X ord a f k0 in
    let n := f / (2 - f) in
    List.length (_alp X tm) = S (Z.to_nat (maxpow_ ord))
    /\ List.length (_bet X tm) = S (Z.to_nat (maxpow_ ord))
    /\ coeff_of (_alp X tm) l = table_entry ord (alpcoeff ord) n l
    /\ coeff_of (_bet X tm) l = table_entry ord (betcoeff ord) n l.
Proof.
  intros M X ord a f k0 l Hl tm n. subst tm n.
  destruct ord; cbn in Hl;
    (split; [reflexivity | split; [reflexivity |]]);
    do 9 (destruct l as [| l];
          [try lia; split; unfold table_entry; rcompute;
           generalize (f / (2 - f)); intros n; field |]); lia.
Qed.

Lemma X2_coefficient_slots_witness :
  coeff_of (_alp StubExact flat_ellipsoid) 2
  = table_entry Order6 (alpcoeff Order6) (1 / 2 / (2 - 1 / 2)) 2.
Proof.
  apply (X2_coefficient_slots RefMath StubExact Order6 1 (1 / 2) 1 2).
  cbn. lia.
Defined.

(* ------------------------------------------------------------------ *)
(** ** The order of the checks of the constructor                      *)
(* ------------------------------------------------------------------ *)

(** X3.  Without the exact engine the constructor tests the radius, the
    flattening, the scale and the extended-domain flag in this order and
    reports the first test that fails: each of the four messages is
    returned exactly when its test fails and the tests before it pass, and
    the series engine of the real values of the arguments is returned
    exactly when all four pass. *)
Theorem X3_constructor_reports_first_failure :
  forall (M : MathLib) (X : ExactEngine) (ord : Order)
         (a f k0 : spec_float) (extendp : bool),
    let r := TransverseMercator_new M X ord a f k0 false extendp in
    (r = inl (GeographicErr_msg "Equatorial radius is not positive")
     <-> radius_ok a = false)
    /\ (r = inl (GeographicErr_msg "Polar semi-axis is not positive")
        <-> radius_ok a = true /\ flattening_ok f = false)
    /\ (r = inl (GeographicErr_msg "Scale is not positive")
        <-> radius_ok a = true /\ flattening_ok f = true
            /\ scale_ok k0 = false)
    /\ (r = inl (GeographicErr_msg
                   "TransverseMercator extendp not allowed if !exact")
        <-> radius_ok a = true /\ flattening_ok f = true
            /\ scale_ok k0 = true /\ extendp = true)
    /\ (r = inr (series_engine M X ord (SF2R a) (SF2R f) (SF2R k0))
        <-> radius_ok a = true /\ flattening_ok f = true
            /\ scale_ok k0 = true /\ extendp = false).
Proof.
  intros M X ord a f k0 extendp r. subst r.
  unfold TransverseMercator_new, radius_ok, flattening_ok, scale_ok.
  fold (series_engine M X ord (SF2R a) (SF2R f) (SF2R k0)).
  destruct (isfinite a && SFltb SF_zero a);
  destruct (isfinite f && SFltb f SF_one);
  destruct (isfinite k0 && SFltb SF_zero k0);
  destruct extendp; cbn [negb];
  repeat split; intros; try discriminate; try reflexivity;
  repeat match goal with H : _ /\ _ |- _ => destruct H end; try discriminate.
Qed.

(* ------------------------------------------------------------------ *)
(** ** What holds of every engine the constructor returns              *)
(* ------------------------------------------------------------------ *)

Lemma SF2R_positive (x : spec_float) :
  isfinite x && SFltb SF_zero x = true -> 0 < SF2R x.
Proof.
  destruct x as [s | s | | s m e]; simpl; try discriminate.
  destruct s; [discriminate |]. intros _.
  apply Rmult_lt_0_compat; [apply IZR_lt; lia | apply powerRZ_lt; lra].
Qed.

Lemma third_flattening_bounds (f : R) : f < 1 -> -1 < f / (2 - f) < 1.
Proof.
  intros Hf.
  assert (Hd : 0 < 2 - f) by lra.
  assert (Hi : 0 < / (2 - f)) by (apply Rinv_0_lt_compat; exact Hd).
  assert (Hn : f / (2 - f) * (2 - f) = f) by (field; lra).
  split; nra.
Qed.

Lemma b1_positive (M : MathLib) (X : ExactEngine) (ord : Order) (a f k0 : R) :
  f < 1 -> 0 < _b1 X (series_engine M X ord a f k0).
Proof.
  intros Hf. unfold series_engine. rewrite generate_b1.
  cbn [initialise _n].
  pose proof (third_flattening_bounds f Hf) as Hn.
  revert Hn. generalize (f / (2 - f)). intros n Hn.
  destruct ord; rcompute; apply Rdiv_lt_0_compat; nra.
Qed.

Lemma series_engine_well_formed (M : MathLib) (X : ExactEngine) (ord : Order)
  (a f k0 : R) :
  0 < a -> f < 1 -> 0 < k0 -> well_formed (series_engine M X ord a f k0).
Proof.
  intros Ha Hf Hk. unfold well_formed.
  pose proof (b1_positive M X ord a f k0 Hf) as Hb1.
  split; [apply series_engine_exact |].
  split.
  { unfold series_engine.
    rewrite (proj2 (proj2 (proj2 (proj2 (proj2 (proj2
              (generate_keeps X ord _))))))).
    cbn [initialise _n]. apply third_flattening_bounds, Hf. }
  split.
  { unfold series_engine.
    rewrite (proj1 (proj2 (proj2 (proj2 (generate_keeps X ord _))))).
    cbn [initialise _e2m]. nra. }
  split; [apply series_engine_e2 |].
  split.
  { rewrite series_engine_c.
    apply Rmult_lt_0_compat; [| apply exp_pos].
    apply sqrt_lt_R0. nra. }
  split; [exact Hb1 |].
  split.
  { unfold series_engine. rewrite generate_a1.
    fold (series_engine M X ord a f k0). cbn [initialise _a]. nra. }
  rewrite series_engine_k0. exact Hk.
Qed.

(** X4.  Every engine the constructor returns without the exact engine
    for a flattening between -1 and 1/2 (a third flattening between -1/3
    and 1/3) is well formed: the third flattening lies strictly between
    -1 and 1, [_e2m] = 1 - [_e2] is positive, and [_c], [_b1], [_a1] and
    [_k0] are positive.  (The range keeps the flattening away from the
    values, a very large negative one and one within 2^-27 of 1, at which
    binary64 rounding gives [_n] = -1 or [_e2m] = 0.) *)
Theorem X4_constructed_engine_is_well_formed :
  forall (M : MathLib) (X : ExactEngine) (ord : Order)
         (a f k0 : spec_float) (extendp : bool) (tm : TransverseMercator X),
    -1 <= SF2R f <= 1 / 2 ->
    TransverseMercator_new M X ord a f k0 false extendp = inr tm ->
    well_formed tm.
Proof.
  intros M X ord a f k0 extendp tm Hrange. unfold TransverseMercator_new.
  destruct (isfinite a && SFltb SF_zero a) eqn:Ha; [| discriminate].
  destruct (isfinite f && SFltb f SF_one) eqn:Hf; [| discriminate].
  destruct (isfinite k0 && SFltb SF_zero k0) eqn:Hk; [| discriminate].
  destruct extendp; [discriminate |].
  cbn [negb]. intros H. injection H as <-.
  apply series_engine_well_formed.
  - apply SF2R_positive, Ha.
  - lra.
  - apply SF2R_positive, Hk.
Qed.

Lemma X4_constructed_engine_is_well_formed_witness :
  well_formed flat_ellipsoid.
Proof.
  apply (X4_constructed_engine_is_well_formed RefMath StubExact Order6
           SF_one SF_half SF_one false flat_ellipsoid).
  - rewrite SF2R_half. lra.
  - exact flat_ellipsoid_constructed.
Defined.

(* ------------------------------------------------------------------ *)
(** ** The slots of the arrays the series read                         *)
(* ------------------------------------------------------------------ *)

Lemma spec_series_sum_ext (c c' : nat -> R) (N : nat) (zeta : complex) :
  (forall j, (1 <= j <= N)%nat -> c j = c' j) ->
  spec_series_sum c N zeta = spec_series_sum c' N zeta.
Proof.
  intros H. unfold spec_series_sum. f_equal. apply Csum_ext.
  intros j Hj. rewrite (H j Hj). reflexivity.
Qed.

Lemma spec_series_derivative_ext (c c' : nat -> R) (N : nat)
  (zeta : complex) :
  (forall j, (1 <= j <= N)%nat -> c j = c' j) ->
  spec_series_derivative c N zeta = spec_series_derivative c' N zeta.
Proof.
  intros H. unfold spec_series_derivative. f_equal. apply Csum_ext.
  intros j Hj. rewrite (H j Hj). reflexivity.
Qed.

(** X5.  The two Clenshaw evaluations read the slots 1..[maxpow_] of
    their array and nothing else: two arrays that agree on these slots
    give the same results, whatever slot 0 holds (the constructor never
    assigns it) and however long the arrays are. *)
Theorem X5_series_read_slots_1_to_maxpow :
  forall (ord : Order) (arr arr' : list R) (u v : R),
    (forall j, (1 <= j <= Z.to_nat (maxpow_ ord))%nat ->
               at_ arr (Z.of_nat j) = at_ arr' (Z.of_nat j)) ->
    Forward_series ord arr u v = Forward_series ord arr' u v
    /\ Reverse_series ord arr u v = Reverse_series ord arr' u v.
Proof.
  intros ord arr arr' u v H.
  rewrite !Forward_series_spec, !Reverse_series_spec.
  split; f_equal; f_equal.
  - apply spec_series_sum_ext. exact H.
  - apply spec_series_derivative_ext. exact H.
  - apply spec_series_sum_ext. intros j Hj.
    unfold neg_coeff_of. rewrite (H j Hj). reflexivity.
  - apply spec_series_derivative_ext. intros j Hj.
    unfold neg_coeff_of. rewrite (H j Hj). reflexivity.
Qed.

Lemma X5_series_read_slots_1_to_maxpow_witness :
  Forward_series Order4 [0; 1; 2; 3; 4] 1 2
  = Forward_series Order4 [7; 1; 2; 3; 4; 9] 1 2.
Proof.
  apply (X5_series_read_slots_1_to_maxpow
           Order4 [0; 1; 2; 3; 4] [7; 1; 2; 3; 4; 9] 1 2).
  intros j Hj. cbn in Hj.
  do 5 (destruct j as [| j]; [try lia; reflexivity |]). lia.
Defined.

(* ------------------------------------------------------------------ *)
(** ** The sphere                                                      *)
(* ------------------------------------------------------------------ *)

Lemma sphere_coefficients (M : MathLib) (X : ExactEngine) (ord : Order)
  (a k0 : R) (j : nat) :
  coeff_of (_alp X (series_engine M X ord a 0 k0)) j = 0
  /\ coeff_of (_bet X (series_engine M X ord a 0 k0)) j = 0.
Proof.
  unfold coeff_of, at_. rewrite Nat2Z.id.
  destruct ord;
    do 9 (destruct j as [| j]; [split; rcompute; lra |]);
    split; rcompute; destruct j; reflexivity.
Qed.

Lemma series_zero_coefficients (c : nat -> R) (N : nat) (zeta : complex) :
  (forall j, (1 <= j <= N)%nat -> c j = 0) ->
  spec_series_sum c N zeta = zeta /\ spec_series_derivative c N zeta = C1.
Proof.
  intros H. unfold spec_series_sum, spec_series_derivative.
  rewrite !Csum_zero.
  - split; csolve.
  - intros j Hj. rewrite (H j Hj). csolve.
  - intros j Hj. rewrite (H j Hj). csolve.
Qed.

Lemma sphere_series (M : MathLib) (X : ExactEngine) (ord : Order)
  (a k0 u v : R) :
  Forward_series ord (_alp X (series_engine M X ord a 0 k0)) u v
  = Some (mkC u v, C1)
  /\ Reverse_series ord (_bet X (series_engine M X ord a 0 k0)) u v
     = Some (mkC u v, C1).
Proof.
  rewrite Forward_series_spec, Reverse_series_spec.
  split.
  - destruct (series_zero_coefficients
                (coeff_of (_alp X (series_engine M X ord a 0 k0)))
                (Z.to_nat (maxpow_ ord)) (mkC u v)) as [-> ->];
      [| reflexivity].
    intros j _. apply sphere_coefficients.
  - destruct (series_zero_coefficients
                (neg_coeff_of (_bet X (series_engine M X ord a 0 k0)))
                (Z.to_nat (maxpow_ ord)) (mkC u v)) as [-> ->];
      [| reflexivity].
    intros j _. unfold neg_coeff_of.
    destruct (sphere_coefficients M X ord a k0 j) as [_ Hb].
    unfold coeff_of in Hb. rewrite Hb. ring.
Qed.

(** X6.  With flattening 0 every entry of [_alp] and of [_bet] is 0, for
    each order, and both Clenshaw evaluations return their argument
    unchanged with derivative 1: on a sphere the series corrections
    vanish. *)
Theorem X6_sphere_series_are_the_identity :
  forall (M : MathLib) (X : ExactEngine) (ord : Order) (a k0 u v : R),
    let tm := series_engine M X ord a 0 k0 in
    (forall j, coeff_of (_alp X tm) j = 0 /\ coeff_of (_bet X tm) j = 0)
    /\ Forward_series ord (_alp X tm) u v = Some (mkC u v, C1)
    /\ Reverse_series ord (_bet X tm) u v = Some (mkC u v, C1).
Proof.
  intros M X ord a k0 u v tm.
  split; [intros j; apply sphere_coefficients | apply sphere_series].
Qed.

(* ------------------------------------------------------------------ *)
(** ** Further points and lines of [Forward]                           *)
(* ------------------------------------------------------------------ *)

Lemma hypot_nonneg (x y : R) : 0 <= hypot x y.
Proof. unfold hypot. apply sqrt_pos. Qed.

Lemma hypot_pos_r (x y : R) : 0 < y -> 0 < hypot x y.
Proof. intros H. unfold hypot. apply sqrt_lt_R0. nra. Qed.

Lemma Cabs_nonneg (u : complex) : 0 <= Cabs u.
Proof. unfold Cabs. apply sqrt_pos. Qed.

Lemma Rinv_nonneg (x : R) : 0 <= x -> 0 <= / x.
Proof.
  intros [H | <-]; [left; apply Rinv_0_lt_compat, H | rewrite Rinv_0; lra].
Qed.

(** [x * sign] is the absolute value, and back. *)
Lemma sign_times_abs (x : R) :
  x * IZR (if signbit x then (-1)%Z else 1%Z) = Rabs x.
Proof.
  unfold signbit, Rabs.
  destruct (Rlt_dec _ 0), (Rcase_abs _); try lra; simpl; ring.
Qed.

Lemma abs_times_sign (x : R) :
  Rabs x * IZR (if signbit x then (-1)%Z else 1%Z) = x.
Proof.
  unfold signbit, Rabs.
  destruct (Rlt_dec _ 0), (Rcase_abs _); try lra; simpl; ring.
Qed.

Lemma normalize_0 (M : MathLib) : MathContract M -> AngNormalize M 0 = 0.
Proof.
  intros HM. pose proof (AngNormalize_odd M HM 0) as H.
  rewrite Ropp_0 in H. lra.
Qed.

(** On the real axis the series stays real. *)
Lemma series_sum_real (c : nat -> R) (N : nat) (u : R) :
  im (spec_series_sum c N (mkC u 0)) = 0.
Proof.
  unfold spec_series_sum. cbn [im Cadd].
  assert (H : forall n, im (Csum (fun j => Cscale (c j)
                     (Csin (Cscale (2 * INR j) (mkC u 0)))) n) = 0).
  { induction n as [| n IH]; [reflexivity |].
    rewrite Csum_S. cbn [im Cadd]. rewrite IH. cbn [re im Cscale Csin].
    replace (2 * INR (S n) * 0) with 0 by ring. rewrite sinh_0. ring. }
  rewrite H. ring.
Qed.

Lemma series_derivative_real (c : nat -> R) (N : nat) (u : R) :
  spec_series_derivative c N (mkC u 0) = RtoC (derivative_on_meridian c N u).
Proof.
  unfold spec_series_derivative, derivative_on_meridian.
  rewrite (Csum_real _ (fun j => 2 * INR j * c j * cos (2 * INR j * u))).
  - csolve.
  - intros j _. apply complex_eq; cbn [re im Cscale Ccos RtoC];
      replace (2 * INR j * 0) with 0 by ring;
      rewrite ?cosh_0, ?sinh_0; ring.
Qed.

Lemma cos_deg_nonneg (x : R) : -90 <= x <= 90 -> 0 <= cos (x * (PI / 180)).
Proof.
  intros H. pose proof PI_RGT_0 as Hpi. apply cos_ge_0; nra.
Qed.

Section ForwardLines.

Variable M : MathLib.
Variable X : ExactEngine.
Variable ord : Order.
Variable tm : TransverseMercator X.

Hypothesis series_engine_used : _exact X tm = false.

Let N : nat := Z.to_nat (maxpow_ ord).

Lemma Forward_central_meridian (lon0 lat lon : R) :
  AngDiff M lon0 lon = 0 ->
  AngNormalize M 0 = 0 ->
  exists y gamma k,
    Forward M X ord tm lon0 lat lon = Some (0, y, gamma, k)
    /\ (0 <= derivative_on_meridian (coeff_of (_alp X tm)) N
               (meridian_xip M tm (Rabs (LatFix M lat))) ->
        gamma = 0).
Proof.
  intros Hlon Hnorm.
  unfold Forward. rewrite series_engine_used. cbv zeta. rewrite Hlon.
  rewrite (signbit_false 0) by lra.
  replace (0 * IZR 1) with 0 by ring.
  rewrite (Rgtb_false 0 qd) by (unfold qd; lra).
  rewrite sign_times_abs.
  unfold sincosd.
  replace (0 * (PI / 180)) with 0 by ring. rewrite sin_0, cos_0.
  unfold meridian_xip. destruct (Reqb (Rabs (LatFix M lat)) qd); cbn [negb].
  - rewrite Forward_series_spec, series_derivative_real. fold N.
    cbn [re im RtoC]. rewrite series_sum_real.
    do 3 eexists. split.
    + apply f_equal; repeat apply (f_equal2 pair); try reflexivity; ring.
    + intros Hd. rewrite (atan2d_0_nonneg _ Hd).
      replace ((0 - 0) * _) with 0 by ring. exact Hnorm.
  - match goal with
    | |- context [asinh (0 / ?h)] =>
        replace (0 / h) with 0 by (unfold Rdiv; ring)
    end.
    unfold asinh. rewrite arcsinh_0.
    rewrite Forward_series_spec, series_derivative_real. fold N.
    cbn [re im RtoC]. rewrite series_sum_real.
    do 3 eexists. split.
    + apply f_equal; repeat apply (f_equal2 pair); try reflexivity; ring.
    + intros Hd. rewrite (atan2d_0_nonneg _ Hd).
      rewrite Rmult_0_l.
      rewrite atan2d_0_nonneg by (rewrite Rmult_1_l; apply hypot_nonneg).
      replace ((0 - 0) * _) with 0 by ring. exact Hnorm.
Qed.

Lemma Forward_equator_front (lon0 lat lon : R) :
  LatFix M lat = 0 ->
  taupf M 0 (_es X tm) = 0 ->
  Rabs (AngDiff M lon0 lon) < qd ->
  exists x gamma k,
    Forward M X ord tm lon0 lat lon = Some (x, 0, gamma, k).
Proof.
  intros Hlat Htaup Hdl.
  unfold Forward. rewrite series_engine_used. cbv zeta. rewrite Hlat.
  rewrite (sign_times_abs (AngDiff M lon0 lon)).
  rewrite (signbit_false 0) by lra.
  replace (0 * IZR 1) with 0 by ring.
  rewrite (Rgtb_false _ qd) by (left; exact Hdl).
  rewrite (Reqb_false 0 qd) by (unfold qd; lra).
  unfold sincosd. cbn [negb].
  replace (0 * (PI / 180)) with 0 by ring.
  rewrite sin_0, cos_0.
  replace (0 / 1) with 0 by field.
  rewrite Htaup.
  assert (Hc : 0 <= cos (Rabs (AngDiff M lon0 lon) * (PI / 180))).
  { apply cos_deg_nonneg. pose proof (Rabs_pos (AngDiff M lon0 lon)).
    unfold qd in Hdl. lra. }
  rewrite (atan2_0_nonneg _ Hc).
  rewrite Forward_series_spec. cbn [re im]. rewrite series_sum_imaginary.
  do 3 eexists.
  apply f_equal; repeat apply (f_equal2 pair); try reflexivity; ring.
Qed.

Lemma Forward_pole_convergence (lon0 lat lon : R) (sg : Z) :
  sg = 1%Z \/ sg = (-1)%Z ->
  LatFix M lat = IZR sg * qd ->
  0 <= derivative_at_pole (coeff_of (_alp X tm)) N ->
  exists x y k,
    Forward M X ord tm lon0 lat lon
    = Some (x, y, AngNormalize M (IZR sg * AngDiff M lon0 lon), k).
Proof.
  intros Hsg Hlat Hd.
  unfold Forward. rewrite series_engine_used. cbv zeta. rewrite Hlat.
  assert (Hs : (if signbit (IZR sg * qd) then (-1)%Z else 1%Z) = sg).
  { destruct Hsg; subst sg; unfold qd.
    - rewrite signbit_false by lra. reflexivity.
    - rewrite signbit_true by lra. reflexivity. }
  rewrite Hs.
  assert (Hq : IZR sg * qd * IZR sg = qd) by (destruct Hsg; subst sg; ring).
  rewrite Hq.
  rewrite (Reqb_false qd 0) by (unfold qd; lra).
  rewrite (Reqb_true qd qd) by reflexivity.
  assert (Hsame : forall b : bool, (if b then sg else sg) = sg)
    by (intros []; reflexivity).
  rewrite Hsame.
  unfold sincosd. cbn [negb].
  rewrite Forward_series_spec, series_sum_pole, series_derivative_pole.
  fold N. cbn [re im RtoC]. rewrite (atan2d_0_nonneg _ Hd).
  do 3 eexists.
  apply f_equal. apply (f_equal2 pair); [| reflexivity].
  apply (f_equal2 pair); [reflexivity |].
  f_equal. unfold hd. rewrite mult_IZR.
  destruct (signbit (AngDiff M lon0 lon)); destruct (Rgtb _ qd); ring.
Qed.

Lemma Forward_scale_nonneg (lon0 lat lon : R) :
  0 <= _c X tm -> 0 <= _b1 X tm -> 0 <= _k0 X tm ->
  exists x y gamma k,
    Forward M X ord tm lon0 lat lon = Some (x, y, gamma, k) /\ 0 <= k.
Proof.
  intros Hc Hb1 Hk0.
  unfold Forward. rewrite series_engine_used. cbv zeta.
  unfold sincosd.
  destruct (negb _); rewrite Forward_series_spec; do 4 eexists;
    (split; [reflexivity |]);
    repeat apply Rmult_le_pos;
    auto using Cabs_nonneg, hypot_nonneg, sqrt_pos, Rinv_nonneg.
Qed.

End ForwardLines.

(** X7.  On the central meridian, that is when the normalized longitude
    difference is 0, [Forward] returns x = 0 at every latitude; and the
    convergence is 0 whenever the derivative series, which is real there,
    is not negative at the Gauss-Schreiber northing of the point. *)
Theorem X7_forward_on_central_meridian :
  forall (M : MathLib) (X : ExactEngine) (ord : Order)
         (tm : TransverseMercator X) (lon0 lat lon : R),
    MathContract M ->
    _exact X tm = false ->
    AngDiff M lon0 lon = 0 ->
    exists y gamma k,
      Forward M X ord tm lon0 lat lon = Some (0, y, gamma, k)
      /\ (0 <= derivative_on_meridian (coeff_of (_alp X tm))
                 (Z.to_nat (maxpow_ ord))
                 (meridian_xip M tm (Rabs (LatFix M lat))) ->
          gamma = 0).
Proof.
  intros M X ord tm lon0 lat lon HM Hex Hlon.
  apply Forward_central_meridian;
    [exact Hex | exact Hlon | apply normalize_0, HM].
Qed.

Lemma X7_forward_on_central_meridian_witness :
  exists y gamma k,
    Forward RefMath StubExact Order6 flat_ellipsoid 7 45 7
    = Some (0, y, gamma, k).
Proof.
  destruct (X7_forward_on_central_meridian RefMath StubExact Order6
              flat_ellipsoid 7 45 7 RefMath_contract
              (series_engine_exact RefMath StubExact Order6 1 (1 / 2) 1)
              (AngDiff_self RefMath RefMath_contract 7))
    as (y & gamma & k & H & _).
  exists y, gamma, k. exact H.
Defined.

(** X8.  On the equator, less than 90 degrees from the central meridian,
    [Forward] returns y = 0.  (At exactly 90 degrees the source divides by
    [hypot(taup, clam)] = 0, and the point has no image.) *)
Theorem X8_forward_on_equator :
  forall (M : MathLib) (X : ExactEngine) (ord : Order)
         (tm : TransverseMercator X) (lon0 lon : R),
    MathContract M ->
    _exact X tm = false ->
    Rabs (AngDiff M lon0 lon) < qd ->
    exists x gamma k,
      Forward M X ord tm lon0 0 lon = Some (x, 0, gamma, k).
Proof.
  intros M X ord tm lon0 lon HM Hex Hlon.
  apply Forward_equator_front; [exact Hex | | apply (taupf_0 M HM) | exact Hlon].
  apply (LatFix_id M HM). unfold qd. lra.
Qed.

Lemma X8_forward_on_equator_witness :
  exists x gamma k,
    Forward RefMath StubExact Order6 flat_ellipsoid 0 0 45
    = Some (x, 0, gamma, k).
Proof.
  apply (X8_forward_on_equator RefMath StubExact Order6 flat_ellipsoid 0 45
           RefMath_contract
           (series_engine_exact RefMath StubExact Order6 1 (1 / 2) 1)).
  change (AngDiff RefMath 0 45) with (ref_AngDiff 0 45).
  rewrite ref_AngDiff_small by (unfold hd; lra).
  unfold qd. rewrite Rabs_pos_eq; lra.
Defined.

(** X9.  At a pole the convergence returned is the normalized longitude
    difference, with the sign of the latitude, on either side of the
    central meridian and on the back side as well, provided the
    derivative series at zeta' = pi/2 is not negative. *)
Theorem X9_forward_convergence_at_pole :
  forall (M : MathLib) (X : ExactEngine) (ord : Order)
         (tm : TransverseMercator X) (lon0 lon : R),
    MathContract M ->
    _exact X tm = false ->
    0 <= derivative_at_pole (coeff_of (_alp X tm))
           (Z.to_nat (maxpow_ ord)) ->
    (exists x y k,
        Forward M X ord tm lon0 90 lon
        = Some (x, y, AngNormalize M (AngDiff M lon0 lon), k))
    /\ (exists x y k,
           Forward M X ord tm lon0 (-90) lon
           = Some (x, y, AngNormalize M (- AngDiff M lon0 lon), k)).
Proof.
  intros M X ord tm lon0 lon HM Hex Hd. split.
  - destruct (Forward_pole_convergence M X ord tm Hex lon0 90 lon 1)
      as (x & y & k & H);
      [left; reflexivity
      | rewrite (LatFix_id M HM) by (unfold qd; lra); unfold qd; ring
      | exact Hd |].
    exists x, y, k. rewrite H.
    replace (IZR 1 * AngDiff M lon0 lon) with (AngDiff M lon0 lon) by ring.
    reflexivity.
  - destruct (Forward_pole_convergence M X ord tm Hex lon0 (-90) lon (-1))
      as (x & y & k & H);
      [right; reflexivity
      | rewrite (LatFix_id M HM) by (unfold qd; lra); unfold qd; ring
      | exact Hd |].
    exists x, y, k. rewrite H.
    replace (IZR (-1) * AngDiff M lon0 lon) with (- AngDiff M lon0 lon)
      by ring.
    reflexivity.
Qed.

Lemma X9_forward_convergence_at_pole_witness :
  exists x y k,
    Forward RefMath StubExact Order6 flat_ellipsoid 0 90 30
    = Some (x, y, AngNormalize RefMath (AngDiff RefMath 0 30), k).
Proof.
  apply (X9_forward_convergence_at_pole RefMath StubExact Order6
           flat_ellipsoid 0 30 RefMath_contract
           (series_engine_exact RefMath StubExact Order6 1 (1 / 2) 1)).
  left. exact (proj1 flat_ellipsoid_pole).
Defined.

(* ------------------------------------------------------------------ *)
(** ** Points, lines and symmetries of [Reverse]                       *)
(* ------------------------------------------------------------------ *)

Lemma atand_bound (x : R) : -90 < atand x < 90.
Proof.
  unfold atand. pose proof (atan_bound x) as H. pose proof PI_RGT_0 as Hpi.
  assert (Hi : 0 < / PI) by (apply Rinv_0_lt_compat; exact Hpi).
  assert (Hk : PI / 2 * (180 / PI) = 90) by (field; lra).
  assert (Hpos : 0 < 180 / PI) by (unfold Rdiv; nra).
  split.
  - replace (-90) with (- PI / 2 * (180 / PI)) by (field; lra).
    apply Rmult_lt_compat_r; [exact Hpos | apply H].
  - rewrite <- Hk. apply Rmult_lt_compat_r; [exact Hpos | apply H].
Qed.

Section ReversePoints.

Variable M : MathLib.
Variable X : ExactEngine.
Variable ord : Order.
Variable tm : TransverseMercator X.

Hypothesis series_engine_used : _exact X tm = false.

Lemma Reverse_latitude_range (lon0 x y : R) :
  exists lat lon gamma k,
    Reverse M X ord tm lon0 x y = Some (lat, lon, gamma, k)
    /\ - qd <= lat <= qd.
Proof.
  unfold Reverse. rewrite series_engine_used. cbv zeta.
  rewrite Reverse_series_spec.
  set (xisign := if signbit (y / (_a1 X tm * _k0 X tm))
                 then (-1)%Z else 1%Z).
  assert (Hs : IZR xisign = 1 \/ IZR xisign = -1)
    by (unfold xisign; destruct (signbit _); [right | left]; reflexivity).
  destruct (negb _).
  - do 4 eexists. split; [reflexivity |].
    match goal with
    | |- context [atand ?t] =>
        generalize (atand_bound t); generalize (atand t); intros u Hb
    end.
    unfold qd. destruct Hs as [-> | ->]; lra.
  - do 4 eexists. split; [reflexivity |].
    unfold qd. destruct Hs as [-> | ->]; lra.
Qed.

Lemma Reverse_central_line (lon0 y : R) :
  exists lat gamma k,
    Reverse M X ord tm lon0 0 y
    = Some (lat,
            AngNormalize M
              ((if Rgtb (Rabs (y / (_a1 X tm * _k0 X tm))) (PI / 2)
                then hd else 0) + lon0),
            gamma, k).
Proof.
  unfold Reverse. rewrite series_engine_used. cbv zeta.
  replace (0 / (_a1 X tm * _k0 X tm)) with 0 by (unfold Rdiv; ring).
  rewrite (signbit_false 0) by lra.
  replace (0 * IZR 1) with 0 by ring.
  rewrite sign_times_abs.
  rewrite Reverse_series_spec. cbn [re im]. rewrite series_sum_real.
  rewrite sinh_0.
  match goal with
  | |- context [fmax 0 ?c] =>
      assert (Hc : 0 <= fmax 0 c) by (unfold fmax; apply Rmax_l);
      generalize dependent (fmax 0 c); intros c' Hc
  end.
  rewrite (atan2d_0_nonneg _ Hc).
  destruct (negb _); do 3 eexists;
    (apply f_equal; repeat apply (f_equal2 pair); try reflexivity);
    f_equal; destruct (Rgtb _ _); ring.
Qed.

Lemma Reverse_equator (lon0 x : R) :
  tauf M 0 (_es X tm) = 0 ->
  exists lon gamma k,
    Reverse M X ord tm lon0 x 0 = Some (0, lon, gamma, k).
Proof.
  intros Htauf.
  unfold Reverse. rewrite series_engine_used. cbv zeta.
  replace (0 / (_a1 X tm * _k0 X tm)) with 0 by (unfold Rdiv; ring).
  rewrite (signbit_false 0) by lra.
  replace (0 * IZR 1) with 0 by ring.
  pose proof PI_RGT_0 as Hpi.
  rewrite (Rgtb_false 0 (PI / 2)) by lra.
  rewrite Reverse_series_spec. cbn [re im]. rewrite series_sum_imaginary.
  rewrite cos_0, sin_0.
  assert (Hmax : fmax 0 1 = 1) by (unfold fmax; apply Rmax_right; lra).
  rewrite Hmax.
  match goal with
  | |- context [hypot ?s 1] =>
      pose proof (hypot_pos_r s 1 Rlt_0_1) as Hr
  end.
  rewrite Reqb_false by lra. cbn [negb].
  match goal with
  | |- context [tauf M (0 / ?r)] =>
      replace (0 / r) with 0 by (unfold Rdiv; ring)
  end.
  rewrite Htauf. unfold atand. rewrite atan_0.
  do 3 eexists.
  apply f_equal; repeat apply (f_equal2 pair); try reflexivity; ring.
Qed.

Lemma Reverse_scale_nonneg (lon0 x y : R) :
  0 <= _c X tm -> 0 <= _b1 X tm -> 0 <= _k0 X tm ->
  exists lat lon gamma k,
    Reverse M X ord tm lon0 x y = Some (lat, lon, gamma, k) /\ 0 <= k.
Proof.
  intros Hc Hb1 Hk0.
  unfold Reverse. rewrite series_engine_used. cbv zeta.
  rewrite Reverse_series_spec.
  destruct (negb _); do 4 eexists; (split; [reflexivity |]);
    repeat apply Rmult_le_pos;
    auto using Cabs_nonneg, hypot_nonneg, sqrt_pos, Rinv_nonneg.
Qed.

Hypothesis normalize_odd :
  forall x, AngNormalize M (- x) = - AngNormalize M x.

Ltac finish_reverse_mirror :=
  do 4 eexists; split; [reflexivity |];
  apply f_equal; repeat apply (f_equal2 pair);
  try reflexivity; try ring;
  try (rewrite <- normalize_odd; f_equal; rewrite ?mult_IZR; ring).

Lemma Reverse_mirror_y (lon0 x y : R) :
  y / (_a1 X tm * _k0 X tm) <> 0 ->
  exists lat lon gamma k,
    Reverse M X ord tm lon0 x y = Some (lat, lon, gamma, k)
    /\ Reverse M X ord tm lon0 x (- y) = Some (- lat, lon, - gamma, k).
Proof.
  intros Hnz.
  unfold Reverse. rewrite series_engine_used. cbv zeta.
  replace (- y / (_a1 X tm * _k0 X tm)) with (- (y / (_a1 X tm * _k0 X tm)))
    by (unfold Rdiv; ring).
  set (xi := y / (_a1 X tm * _k0 X tm)) in *.
  destruct (Rlt_dec xi 0) as [Hlt | Hge].
  - rewrite (signbit_true xi), (signbit_false (- xi)) by lra.
    replace (- xi * IZR 1) with (xi * IZR (-1)) by ring.
    destruct (Rgtb _ (PI / 2)); rewrite Reverse_series_spec;
      destruct (negb _); finish_reverse_mirror.
  - rewrite (signbit_false xi), (signbit_true (- xi)) by lra.
    replace (- xi * IZR (-1)) with (xi * IZR 1) by ring.
    destruct (Rgtb _ (PI / 2)); rewrite Reverse_series_spec;
      destruct (negb _); finish_reverse_mirror.
Qed.

Lemma Reverse_mirror_x (x y : R) :
  x / (_a1 X tm * _k0 X tm) <> 0 ->
  exists lat lon gamma k,
    Reverse M X ord tm 0 x y = Some (lat, lon, gamma, k)
    /\ Reverse M X ord tm 0 (- x) y = Some (lat, - lon, - gamma, k).
Proof.
  intros Hnz.
  unfold Reverse. rewrite series_engine_used. cbv zeta.
  replace (- x / (_a1 X tm * _k0 X tm)) with (- (x / (_a1 X tm * _k0 X tm)))
    by (unfold Rdiv; ring).
  set (eta := x / (_a1 X tm * _k0 X tm)) in *.
  destruct (Rlt_dec eta 0) as [Hlt | Hge].
  - rewrite (signbit_true eta), (signbit_false (- eta)) by lra.
    replace (- eta * IZR 1) with (eta * IZR (-1)) by ring.
    destruct (Rgtb _ (PI / 2)); rewrite Reverse_series_spec;
      destruct (negb _); finish_reverse_mirror.
  - rewrite (signbit_false eta), (signbit_true (- eta)) by lra.
    replace (- eta * IZR (-1)) with (eta * IZR 1) by ring.
    destruct (Rgtb _ (PI / 2)); rewrite Reverse_series_spec;
      destruct (negb _); finish_reverse_mirror.
Qed.

End ReversePoints.

Lemma well_formed_scale {X : ExactEngine} (tm : TransverseMercator X) :
  well_formed tm -> 0 < _a1 X tm * _k0 X tm.
Proof.
  intros (_ & _ & _ & _ & _ & _ & Ha1 & Hk0).
  apply Rmult_lt_0_compat; assumption.
Qed.

Lemma flat_ellipsoid_well_formed : well_formed flat_ellipsoid.
Proof. apply series_engine_well_formed; lra. Qed.

Lemma unit_sphere_well_formed : well_formed unit_sphere.
Proof. apply series_engine_well_formed; lra. Qed.

Lemma flat_ellipsoid_unit_northing :
  1 / (_a1 StubExact flat_ellipsoid * _k0 StubExact flat_ellipsoid) <> 0.
Proof.
  pose proof (well_formed_scale flat_ellipsoid flat_ellipsoid_well_formed)
    as H.
  apply Rinv_0_lt_compat in H. unfold Rdiv. lra.
Qed.

(** X10.  The latitude [Reverse] returns lies in [-90, 90], for every
    engine and every point of the plane. *)
Theorem X10_reverse_latitude_in_range :
  forall (M : MathLib) (X : ExactEngine) (ord : Order)
         (tm : TransverseMercator X) (lon0 x y : R),
    _exact X tm = false ->
    exists lat lon gamma k,
      Reverse M X ord tm lon0 x y = Some (lat, lon, gamma, k)
      /\ - qd <= lat <= qd.
Proof.
  intros M X ord tm lon0 x y Hex. apply Reverse_latitude_range, Hex.
Qed.

Lemma X10_reverse_latitude_in_range_witness :
  exists lat lon gamma k,
    Reverse RefMath StubExact Order6 flat_ellipsoid 0 3 (-2)
    = Some (lat, lon, gamma, k)
    /\ - qd <= lat <= qd.
Proof.
  apply (X10_reverse_latitude_in_range RefMath StubExact Order6
           flat_ellipsoid 0 3 (-2)).
  apply series_engine_exact.
Defined.

(** X11.  A point with x = 0 is sent by [Reverse] to the central
    meridian, or to its antimeridian when the scaled northing exceeds
    pi/2 in absolute value: the longitude returned is the normalized
    [lon0], respectively [180 + lon0]. *)
Theorem X11_reverse_on_central_line :
  forall (M : MathLib) (X : ExactEngine) (ord : Order)
         (tm : TransverseMercator X) (lon0 y : R),
    _exact X tm = false ->
    exists lat gamma k,
      Reverse M X ord tm lon0 0 y
      = Some (lat,
              AngNormalize M
                ((if Rgtb (Rabs (y / (_a1 X tm * _k0 X tm))) (PI / 2)
                  then hd else 0) + lon0),
              gamma, k).
Proof.
  intros M X ord tm lon0 y Hex. apply Reverse_central_line, Hex.
Qed.

Lemma X11_reverse_on_central_line_witness :
  exists lat gamma k,
    Reverse RefMath StubExact Order6 flat_ellipsoid 9 0 1
    = Some (lat,
            AngNormalize RefMath
              ((if Rgtb (Rabs (1 / (_a1 StubExact flat_ellipsoid
                                    * _k0 StubExact flat_ellipsoid)))
                        (PI / 2)
                then hd else 0) + 9),
            gamma, k).
Proof.
  apply (X11_reverse_on_central_line RefMath StubExact Order6
           flat_ellipsoid 9 1).
  apply series_engine_exact.
Defined.

(** X12.  A point with y = 0 is sent by [Reverse] to the equator, when
    the inverse conformal-latitude map sends 0 to 0. *)
Theorem X12_reverse_on_equator :
  forall (M : MathLib) (X : ExactEngine) (ord : Order)
         (tm : TransverseMercator X) (lon0 x : R),
    _exact X tm = false ->
    tauf M 0 (_es X tm) = 0 ->
    exists lon gamma k,
      Reverse M X ord tm lon0 x 0 = Some (0, lon, gamma, k).
Proof.
  intros M X ord tm lon0 x Hex Htauf.
  apply Reverse_equator; assumption.
Qed.

Lemma ref_tauf_0 (es : R) : ref_tauf 0 es = 0.
Proof.
  unfold ref_tauf. cbv zeta.
  replace (0 / (1 - sq es)) with 0 by (unfold Rdiv; ring).
  assert (Hstep : ref_tauf_step 0 es (1 - sq es) 0 = 0).
  { unfold ref_tauf_step. cbv zeta. rewrite ref_taupf_0.
    unfold Rdiv. ring. }
  simpl Nat.iter. rewrite !Hstep. reflexivity.
Qed.

Lemma X12_reverse_on_equator_witness :
  exists lon gamma k,
    Reverse RefMath StubExact Order6 flat_ellipsoid 0 (1 / 4) 0
    = Some (0, lon, gamma, k).
Proof.
  apply (X12_reverse_on_equator RefMath StubExact Order6
           flat_ellipsoid 0 (1 / 4)).
  - apply series_engine_exact.
  - apply ref_tauf_0.
Defined.

(** X14.  Negating a northing that is not 0 negates the latitude and the
    convergence [Reverse] returns and leaves the longitude and the scale
    unchanged. *)
Theorem X14_reverse_mirror_northing :
  forall (M : MathLib) (X : ExactEngine) (ord : Order)
         (tm : TransverseMercator X) (lon0 x y : R),
    MathContract M ->
    _exact X tm = false ->
    y / (_a1 X tm * _k0 X tm) <> 0 ->
    exists lat lon gamma k,
      Reverse M X ord tm lon0 x y = Some (lat, lon, gamma, k)
      /\ Reverse M X ord tm lon0 x (- y) = Some (- lat, lon, - gamma, k).
Proof.
  intros M X ord tm lon0 x y HM Hex Hnz.
  apply Reverse_mirror_y; [exact Hex | apply (AngNormalize_odd M HM) | exact Hnz].
Qed.

Lemma X14_reverse_mirror_northing_witness :
  exists lat lon gamma k,
    Reverse RefMath StubExact Order6 flat_ellipsoid 0 2 1
    = Some (lat, lon, gamma, k)
    /\ Reverse RefMath StubExact Order6 flat_ellipsoid 0 2 (- 1)
       = Some (- lat, lon, - gamma, k).
Proof.
  apply (X14_reverse_mirror_northing RefMath StubExact Order6
           flat_ellipsoid 0 2 1 RefMath_contract).
  - apply series_engine_exact.
  - exact flat_ellipsoid_unit_northing.
Defined.

(** X15.  With the central meridian 0, negating an easting that is not 0
    negates the longitude and the convergence [Reverse] returns and
    leaves the latitude and the scale unchanged. *)
Theorem X15_reverse_mirror_easting :
  forall (M : MathLib) (X : ExactEngine) (ord : Order)
         (tm : TransverseMercator X) (x y : R),
    MathContract M ->
    _exact X tm = false ->
    x / (_a1 X tm * _k0 X tm) <> 0 ->
    exists lat lon gamma k,
      Reverse M X ord tm 0 x y = Some (lat, lon, gamma, k)
      /\ Reverse M X ord tm 0 (- x) y = Some (lat, - lon, - gamma, k).
Proof.
  intros M X ord tm x y HM Hex Hnz.
  apply Reverse_mirror_x; [exact Hex | apply (AngNormalize_odd M HM) | exact Hnz].
Qed.

Lemma X15_reverse_mirror_easting_witness :
  exists lat lon gamma k,
    Reverse RefMath StubExact Order6 flat_ellipsoid 0 1 2
    = Some (lat, lon, gamma, k)
    /\ Reverse RefMath StubExact Order6 flat_ellipsoid 0 (- 1) 2
       = Some (lat, - lon, - gamma, k).
Proof.
  apply (X15_reverse_mirror_easting RefMath StubExact Order6
           flat_ellipsoid 1 2 RefMath_contract).
  - apply series_engine_exact.
  - exact flat_ellipsoid_unit_northing.
Defined.

(* ------------------------------------------------------------------ *)
(** ** [Reverse] after [Forward]                                       *)
(* ------------------------------------------------------------------ *)

Lemma atan2_pos (y x : R) : 0 < x -> atan2 y x = atan (y / x).
Proof. intros H. unfold atan2. destruct (Rlt_dec 0 x); [reflexivity | lra]. Qed.

Lemma sqrt_1_plus_sq (t c : R) :
  0 < c -> sqrt (1 + (t / c)²) = hypot t c / c.
Proof.
  intros Hc. unfold hypot, Rsqr.
  replace (1 + t / c * (t / c)) with ((t * t + c * c) / (c * c))
    by (field; lra).
  rewrite sqrt_div_alt by nra.
  rewrite (sqrt_square c) by lra. reflexivity.
Qed.

Lemma cos_atan2 (t c : R) : 0 < c -> cos (atan2 t c) = c / hypot t c.
Proof.
  intros Hc. pose proof (hypot_pos_r t c Hc) as Hh.
  rewrite atan2_pos by exact Hc.
  rewrite cos_atan, sqrt_1_plus_sq by exact Hc. field. lra.
Qed.

Lemma sin_atan2 (t c : R) : 0 < c -> sin (atan2 t c) = t / hypot t c.
Proof.
  intros Hc. pose proof (hypot_pos_r t c Hc) as Hh.
  rewrite atan2_pos by exact Hc.
  rewrite sin_atan, sqrt_1_plus_sq by exact Hc. field. lra.
Qed.

Lemma hypot_scaled (s c h : R) :
  0 < h -> s * s + c * c = 1 -> hypot (s / h) (c / h) = / h.
Proof.
  intros Hh H1. unfold hypot.
  apply sqrt_lem_1.
  - assert (0 <= (s / h) * (s / h)) by nra.
    assert (0 <= (c / h) * (c / h)) by nra. lra.
  - left. apply Rinv_0_lt_compat, Hh.
  - replace (/ h * / h) with ((s * s + c * c) / (h * h))
      by (rewrite H1; field; lra).
    field. lra.
Qed.

Lemma atand_tand (x : R) :
  -90 < x < 90 -> atand (sin (x * (PI / 180)) / cos (x * (PI / 180))) = x.
Proof.
  intros H. pose proof PI_RGT_0 as Hpi. unfold atand.
  change (sin (x * (PI / 180)) / cos (x * (PI / 180)))
    with (tan (x * (PI / 180))).
  rewrite atan_tan by (split; nra). field. lra.
Qed.

Lemma sin_deg_nonneg (x : R) : 0 <= x < 90 -> 0 <= sin (x * (PI / 180)).
Proof.
  intros H. pose proof PI_RGT_0 as Hpi.
  apply sin_ge_0; nra.
Qed.

Lemma sin_deg_pos (x : R) : 0 < x < 90 -> 0 < sin (x * (PI / 180)).
Proof.
  intros H. pose proof PI_RGT_0 as Hpi.
  apply sin_gt_0; nra.
Qed.

Lemma cos_deg_pos_abs (x : R) : 0 <= x < 90 -> 0 < cos (x * (PI / 180)).
Proof.
  intros H. pose proof PI_RGT_0 as Hpi.
  apply cos_gt_0; nra.
Qed.

Lemma arcsinh_nonneg (x : R) : 0 <= x -> 0 <= arcsinh x.
Proof.
  intros [H | <-].
  - left. rewrite <- arcsinh_0. apply arcsinh_lt, H.
  - rewrite arcsinh_0. lra.
Qed.

Lemma arcsinh_pos (x : R) : 0 < x -> 0 < arcsinh x.
Proof. intros H. rewrite <- arcsinh_0. apply arcsinh_lt, H. Qed.

Lemma atan_nonneg (x : R) : 0 <= x -> 0 <= atan x.
Proof.
  intros [H | <-].
  - left. rewrite <- atan_0. apply atan_increasing, H.
  - rewrite atan_0. lra.
Qed.

Lemma atan_pos (x : R) : 0 < x -> 0 < atan x.
Proof. intros H. rewrite <- atan_0. apply atan_increasing, H. Qed.

Lemma signbit_sign_pos (v : R) (b : bool) :
  0 <= v -> (b = true -> 0 < v) ->
  signbit (v * IZR (if b then (-1)%Z else 1%Z)) = b.
Proof.
  intros Hv Hb. destruct b.
  - apply signbit_true. specialize (Hb eq_refl). lra.
  - apply signbit_false. lra.
Qed.

(** [Reverse] after [Forward] on an engine whose series corrections
    vanish and whose conformal-latitude maps are the identity. *)
Section RoundTrip.

Variable M : MathLib.
Variable X : ExactEngine.
Variable ord : Order.
Variable tm : TransverseMercator X.

Hypothesis series_engine_used : _exact X tm = false.
Hypothesis forward_series_identity :
  forall u v, Forward_series ord (_alp X tm) u v = Some (mkC u v, C1).
Hypothesis reverse_series_identity :
  forall u v, Reverse_series ord (_bet X tm) u v = Some (mkC u v, C1).
Hypothesis positive_scale : 0 < _a1 X tm * _k0 X tm.
Hypothesis taupf_identity : forall t, taupf M t (_es X tm) = t.
Hypothesis tauf_identity : forall t, tauf M t (_es X tm) = t.
Hypothesis LatFix_identity : forall x, - qd <= x <= qd -> LatFix M x = x.

Lemma round_trip_without_series (lon0 lat lon : R) :
  - qd < lat < qd ->
  - qd < AngDiff M lon0 lon < qd ->
  exists x y gamma k,
    Forward M X ord tm lon0 lat lon = Some (x, y, gamma, k)
    /\ exists gamma' k',
         Reverse M X ord tm lon0 x y
         = Some (lat, AngNormalize M (AngDiff M lon0 lon + lon0), gamma', k').
Proof.
  intros Hlat Hlon. unfold qd in Hlat, Hlon.
  pose proof PI_RGT_0 as Hpi.
  unfold Forward. rewrite series_engine_used. cbv zeta.
  rewrite LatFix_identity by (unfold qd; lra).
  set (d := AngDiff M lon0 lon) in *.
  rewrite !sign_times_abs.
  assert (Hla : 0 <= Rabs lat < 90)
    by (split; [apply Rabs_pos | apply Rabs_def1; lra]).
  assert (Hda : 0 <= Rabs d < 90)
    by (split; [apply Rabs_pos | apply Rabs_def1; lra]).
  rewrite (Rgtb_false (Rabs d) qd) by (unfold qd; lra).
  unfold sincosd.
  rewrite (Reqb_false (Rabs lat) qd) by (unfold qd; lra). cbn [negb].
  rewrite taupf_identity, forward_series_identity. cbv iota. cbn [re im].
  do 4 eexists. split; [reflexivity |].
  set (clam := cos (Rabs d * (PI / 180))).
  set (slam := sin (Rabs d * (PI / 180))).
  set (tau := sin (Rabs lat * (PI / 180)) / cos (Rabs lat * (PI / 180))).
  assert (Hclam : 0 < clam) by (apply cos_deg_pos_abs; exact Hda).
  assert (Hslam : 0 <= slam) by (apply sin_deg_nonneg; exact Hda).
  assert (Hcphi : 0 < cos (Rabs lat * (PI / 180)))
    by (apply cos_deg_pos_abs; exact Hla).
  assert (Htau : 0 <= tau).
  { unfold tau. apply Rmult_le_pos; [apply sin_deg_nonneg; exact Hla |].
    left. apply Rinv_0_lt_compat, Hcphi. }
  pose proof (hypot_pos_r tau clam Hclam) as Hh.
  set (h := hypot tau clam) in *.
  set (xip := atan2 tau clam).
  set (etap := asinh (slam / h)).
  assert (Hxip : 0 <= xip).
  { unfold xip. rewrite atan2_pos by exact Hclam. apply atan_nonneg.
    apply Rmult_le_pos; [exact Htau | left; apply Rinv_0_lt_compat, Hclam]. }
  assert (Hxip2 : xip < PI / 2).
  { unfold xip. rewrite atan2_pos by exact Hclam. apply atan_bound. }
  assert (Hetap : 0 <= etap).
  { unfold etap, asinh. apply arcsinh_nonneg.
    apply Rmult_le_pos; [exact Hslam | left; apply Rinv_0_lt_compat, Hh]. }
  assert (Hxip_neg : signbit lat = true -> 0 < xip).
  { intros Hs. unfold signbit in Hs.
    destruct (Rlt_dec lat 0) as [Hn |]; [| discriminate].
    unfold xip. rewrite atan2_pos by exact Hclam. apply atan_pos.
    apply Rmult_lt_0_compat; [| apply Rinv_0_lt_compat, Hclam].
    unfold tau. apply Rmult_lt_0_compat; [| apply Rinv_0_lt_compat, Hcphi].
    apply sin_deg_pos. rewrite Rabs_left by exact Hn. lra. }
  assert (Hetap_neg : signbit d = true -> 0 < etap).
  { intros Hs. unfold signbit in Hs.
    destruct (Rlt_dec d 0) as [Hn |]; [| discriminate].
    unfold etap, asinh. apply arcsinh_pos.
    apply Rmult_lt_0_compat; [| apply Rinv_0_lt_compat, Hh].
    apply sin_deg_pos. rewrite Rabs_left by exact Hn. lra. }
  assert (Hnz : _a1 X tm <> 0 /\ _k0 X tm <> 0).
  { pose proof positive_scale as Hp.
    split; intros H0; rewrite H0 in Hp; lra. }
  unfold Reverse. rewrite series_engine_used. cbv zeta.
  replace (_a1 X tm * _k0 X tm * xip * IZR (if signbit lat then (-1)%Z else 1%Z)
           / (_a1 X tm * _k0 X tm))
    with (xip * IZR (if signbit lat then (-1)%Z else 1%Z))
    by (field; tauto).
  replace (_a1 X tm * _k0 X tm * etap * IZR (if signbit d then (-1)%Z else 1%Z)
           / (_a1 X tm * _k0 X tm))
    with (etap * IZR (if signbit d then (-1)%Z else 1%Z))
    by (field; tauto).
  rewrite (signbit_sign_pos xip (signbit lat) Hxip Hxip_neg).
  rewrite (signbit_sign_pos etap (signbit d) Hetap Hetap_neg).
  replace (xip * IZR (if signbit lat then (-1)%Z else 1%Z)
           * IZR (if signbit lat then (-1)%Z else 1%Z)) with xip
    by (destruct (signbit lat); ring).
  replace (etap * IZR (if signbit d then (-1)%Z else 1%Z)
           * IZR (if signbit d then (-1)%Z else 1%Z)) with etap
    by (destruct (signbit d); ring).
  rewrite (Rgtb_false xip (PI / 2)) by lra.
  rewrite reverse_series_identity. cbn [re im].
  assert (Hs : sinh etap = slam / h) by (unfold etap, asinh; apply sinh_arcsinh).
  assert (Hc : cos xip = clam / h) by (unfold xip, h; apply cos_atan2, Hclam).
  assert (Hsx : sin xip = tau / h) by (unfold xip, h; apply sin_atan2, Hclam).
  assert (Hcpos : 0 < clam / h)
    by (apply Rmult_lt_0_compat; [exact Hclam | apply Rinv_0_lt_compat, Hh]).
  rewrite Hs, Hc, Hsx.
  assert (Hmax : fmax 0 (clam / h) = clam / h)
    by (unfold fmax; apply Rmax_right; lra).
  rewrite Hmax.
  assert (Hone : slam * slam + clam * clam = 1).
  { unfold slam, clam. pose proof (sin2_cos2 (Rabs d * (PI / 180))) as H1.
    unfold Rsqr in H1. exact H1. }
  rewrite (hypot_scaled slam clam h Hh Hone).
  assert (Hih : 0 < / h) by (apply Rinv_0_lt_compat, Hh).
  rewrite (Reqb_false (/ h) 0) by lra. cbn [negb].
  replace (tau / h / / h) with tau by (field; lra).
  rewrite tauf_identity.
  unfold tau at 1. rewrite atand_tand by lra.
  rewrite abs_times_sign.
  unfold atan2d. rewrite atan2_pos by exact Hcpos.
  replace (slam / h / (clam / h)) with (slam / clam) by (field; lra).
  unfold slam, clam.
  change (sin (Rabs d * (PI / 180)) / cos (Rabs d * (PI / 180)))
    with (tan (Rabs d * (PI / 180))).
  rewrite atan_tan by (split; nra).
  replace (Rabs d * (PI / 180) * (180 / PI)) with (Rabs d) by (field; lra).
  rewrite abs_times_sign.
  do 2 eexists. reflexivity.
Qed.

End RoundTrip.

Lemma sphere_es (M : MathLib) (X : ExactEngine) (ord : Order) (a k0 : R) :
  _es X (series_engine M X ord a 0 k0) = 0.
Proof.
  unfold series_engine.
  rewrite (proj1 (proj2 (proj2 (proj2 (proj2 (generate_keeps X ord _)))))).
  cbn [initialise _es]. unfold fabs.
  replace (0 * (2 - 0)) with 0 by ring.
  rewrite Rabs_R0, sqrt_0. ring.
Qed.

(** X16.  On a sphere [Reverse] undoes [Forward] exactly, over the
    reals, on the open hemisphere around the central meridian: for a
    latitude strictly between -90 and 90 and a normalized longitude
    difference strictly between -90 and 90, [Reverse] at the point
    [Forward] returns gives the latitude back, and the longitude
    difference added to the central meridian and normalized.  The
    conformal-latitude maps are the identity for eccentricity 0. *)
Theorem X16_sphere_round_trip :
  forall (M : MathLib) (X : ExactEngine) (ord : Order)
         (a k0 lon0 lat lon : R),
    MathContract M ->
    (forall t, taupf M t 0 = t) ->
    (forall t, tauf M t 0 = t) ->
    0 < a -> 0 < k0 ->
    - qd < lat < qd ->
    - qd < AngDiff M lon0 lon < qd ->
    let tm := series_engine M X ord a 0 k0 in
    exists x y gamma k,
      Forward M X ord tm lon0 lat lon = Some (x, y, gamma, k)
      /\ exists gamma' k',
           Reverse M X ord tm lon0 x y
           = Some (lat, AngNormalize M (AngDiff M lon0 lon + lon0),
                   gamma', k').
Proof.
  intros M X ord a k0 lon0 lat lon HM Htaupf Htauf Ha Hk0 Hlat Hlon tm.
  apply round_trip_without_series; try assumption.
  - apply series_engine_exact.
  - intros u v. apply sphere_series.
  - intros u v. apply sphere_series.
  - unfold tm. rewrite sphere_a1, series_engine_k0.
    apply Rmult_lt_0_compat; assumption.
  - unfold tm. rewrite sphere_es. exact Htaupf.
  - unfold tm. rewrite sphere_es. exact Htauf.
  - apply (LatFix_id M HM).
Qed.

Lemma ref_eatanhe_sphere (x : R) : ref_eatanhe x 0 = 0.
Proof.
  unfold ref_eatanhe. destruct (Rlt_dec 0 0) as [H | _]; [lra | ring].
Qed.

Lemma ref_taupf_sphere (t : R) : ref_taupf t 0 = t.
Proof.
  unfold ref_taupf. cbv zeta.
  rewrite ref_eatanhe_sphere, sinh_0, hypot_1_0. ring.
Qed.

Lemma ref_tauf_sphere (t : R) : ref_tauf t 0 = t.
Proof.
  unfold ref_tauf. cbv zeta.
  assert (Hstep : forall e2m, ref_tauf_step t 0 e2m t = t).
  { intros e2m. unfold ref_tauf_step. cbv zeta. rewrite ref_taupf_sphere.
    unfold Rdiv. ring. }
  replace (t / (1 - sq 0)) with t by (unfold sq; field).
  simpl Nat.iter. rewrite !Hstep. reflexivity.
Qed.

Lemma X16_sphere_round_trip_witness :
  exists x y gamma k,
    Forward RefMath StubExact Order6 unit_sphere 10 30 40
    = Some (x, y, gamma, k)
    /\ exists gamma' k',
         Reverse RefMath StubExact Order6 unit_sphere 10 x y
         = Some (30, AngNormalize RefMath (AngDiff RefMath 10 40 + 10),
                 gamma', k').
Proof.
  apply (X16_sphere_round_trip RefMath StubExact Order6 1 1 10 30 40
           RefMath_contract ref_taupf_sphere ref_tauf_sphere).
  - lra.
  - lra.
  - unfold qd. lra.
  - change (AngDiff RefMath 10 40) with (ref_AngNormalize (40 - 10)).
    rewrite ref_AngNormalize_small by (unfold hd; lra). unfold qd. lra.
Defined.

(* ------------------------------------------------------------------ *)
(** ** The scale is never negative                                     *)
(* ------------------------------------------------------------------ *)

(** X18.  On a well-formed engine, so on every engine the constructor
    returns without the exact engine, the scale returned by [Forward] and
    by [Reverse] is never negative, at any point.  (Over the reals, where
    a quotient by 0 is 0: the source divides by [hypot(taup, clam)] in
    [Forward] and by [abs(z1)] in [Reverse], which can vanish.) *)
Theorem X18_scale_is_never_negative :
  forall (M : MathLib) (X : ExactEngine) (ord : Order)
         (tm : TransverseMercator X) (lon0 u v : R),
    well_formed tm ->
    (exists x y gamma k,
        Forward M X ord tm lon0 u v = Some (x, y, gamma, k) /\ 0 <= k)
    /\ (exists lat lon gamma k,
           Reverse M X ord tm lon0 u v = Some (lat, lon, gamma, k)
           /\ 0 <= k).
Proof.
  intros M X ord tm lon0 u v (Hex & _ & _ & _ & Hc & Hb1 & _ & Hk0).
  split.
  - apply Forward_scale_nonneg; [exact Hex | lra | lra | lra].
  - apply Reverse_scale_nonneg; [exact Hex | lra | lra | lra].
Qed.

Lemma X18_scale_is_never_negative_witness :
  exists x y gamma k,
    Forward RefMath StubExact Order6 flat_ellipsoid 0 50 20
    = Some (x, y, gamma, k) /\ 0 <= k.
Proof.
  apply (X18_scale_is_never_negative RefMath StubExact Order6
           flat_ellipsoid 0 50 20).
  exact flat_ellipsoid_well_formed.
Defined.

(* ------------------------------------------------------------------ *)
(** ** The back side                                                   *)
(* ------------------------------------------------------------------ *)

Section BackSide.

Variable M : MathLib.
Variable X : ExactEngine.
Variable ord : Order.
Variable tm : TransverseMercator X.

Hypothesis series_engine_used : _exact X tm = false.

Lemma Forward_backside_reflection (lon0 lat lon lon' : R) :
  LatFix M lat <> 0 ->
  0 <= AngDiff M lon0 lon < qd ->
  AngDiff M lon0 lon' = hd - AngDiff M lon0 lon ->
  let s := IZR (if signbit (LatFix M lat) then (-1)%Z else 1%Z) in
  exists x y g k,
    Forward M X ord tm lon0 lat lon
    = Some (x, y, AngNormalize M (g * s), k)
    /\ Forward M X ord tm lon0 lat lon'
       = Some (x, _a1 X tm * _k0 X tm * PI * s - y,
               AngNormalize M ((hd - g) * s), k).
Proof.
  intros Hlat Hd Hback s.
  unfold Forward. rewrite series_engine_used. cbv zeta.
  rewrite Hback.
  set (d := AngDiff M lon0 lon) in *.
  unfold qd, hd in *.
  rewrite (signbit_false d), (signbit_false (180 - d)) by lra.
  replace (d * IZR 1) with d by ring.
  replace ((180 - d) * IZR 1) with (180 - d) by ring.
  rewrite (Rgtb_false d 90), (Rgtb_true (180 - d) 90) by lra.
  replace (180 - (180 - d)) with d by ring.
  assert (Hnz : LatFix M lat
                * IZR (if signbit (LatFix M lat) then (-1)%Z else 1%Z) <> 0).
  { unfold signbit. destruct (Rlt_dec _ 0); simpl; lra. }
  rewrite (Reqb_false _ 0 Hnz).
  unfold sincosd. cbv iota.
  rewrite !mult_IZR, !Rmult_1_r. fold s.
  destruct (negb _); rewrite Forward_series_spec; cbn [re im];
    do 4 eexists; (split; [reflexivity |]);
    apply f_equal; repeat apply (f_equal2 pair);
    try reflexivity; ring.
Qed.

Lemma Reverse_backside_reflection (lon0 x y : R) :
  _a1 X tm * _k0 X tm <> 0 ->
  0 < y / (_a1 X tm * _k0 X tm) < PI / 2 ->
  let e := IZR (if signbit (x / (_a1 X tm * _k0 X tm))
                then (-1)%Z else 1%Z) in
  exists lat l g k,
    Reverse M X ord tm lon0 x y
    = Some (lat, AngNormalize M (l * e + lon0), AngNormalize M (g * e), k)
    /\ Reverse M X ord tm lon0 x (_a1 X tm * _k0 X tm * PI - y)
       = Some (lat, AngNormalize M ((hd - l) * e + lon0),
               AngNormalize M ((hd - g) * e), k).
Proof.
  intros Hnz Hy e.
  unfold Reverse. rewrite series_engine_used. cbv zeta.
  replace ((_a1 X tm * _k0 X tm * PI - y) / (_a1 X tm * _k0 X tm))
    with (PI - y / (_a1 X tm * _k0 X tm))
    by (field; split; intros H0; apply Hnz; rewrite H0; ring).
  set (xi := y / (_a1 X tm * _k0 X tm)) in *.
  rewrite (signbit_false xi), (signbit_false (PI - xi)) by lra.
  replace (xi * IZR 1) with xi by ring.
  replace ((PI - xi) * IZR 1) with (PI - xi) by ring.
  rewrite (Rgtb_false xi (PI / 2)), (Rgtb_true (PI - xi) (PI / 2)) by lra.
  replace (PI - (PI - xi)) with xi by ring.
  rewrite Reverse_series_spec. cbn [re im]. cbv iota.
  rewrite !mult_IZR, !Rmult_1_l. fold e.
  destruct (negb _);
    do 4 eexists; (split; [reflexivity |]);
    apply f_equal; repeat apply (f_equal2 pair);
    try reflexivity; try ring.
Qed.
End BackSide.

(** X19.  [Forward] treats a point more than 90 degrees from the central
    meridian as the reflection of a front-side point: for a latitude that
    is not 0 and a longitude difference d in [0, 90), the point at the
    difference 180 - d has the same easting and scale as the point at d,
    its northing is a1 k0 pi, with the sign of the latitude, minus the
    northing of that point, and its convergence is built from 180 minus
    the (unsigned) convergence of that point. *)
Theorem X19_forward_back_side_reflection :
  forall (M : MathLib) (X : ExactEngine) (ord : Order)
         (tm : TransverseMercator X) (lon0 lat lon lon' : R),
    _exact X tm = false ->
    LatFix M lat <> 0 ->
    0 <= AngDiff M lon0 lon < qd ->
    AngDiff M lon0 lon' = hd - AngDiff M lon0 lon ->
    let s := IZR (if signbit (LatFix M lat) then (-1)%Z else 1%Z) in
    exists x y g k,
      Forward M X ord tm lon0 lat lon
      = Some (x, y, AngNormalize M (g * s), k)
      /\ Forward M X ord tm lon0 lat lon'
         = Some (x, _a1 X tm * _k0 X tm * PI * s - y,
                 AngNormalize M ((hd - g) * s), k).
Proof.
  intros M X ord tm lon0 lat lon lon' Hex Hlat Hd Hback.
  apply Forward_backside_reflection; assumption.
Qed.

Lemma X19_forward_back_side_reflection_witness :
  exists x y g k,
    Forward RefMath StubExact Order6 flat_ellipsoid 0 30 20
    = Some (x, y,
            AngNormalize RefMath
              (g * IZR (if signbit (LatFix RefMath 30)
                        then (-1)%Z else 1%Z)), k)
    /\ Forward RefMath StubExact Order6 flat_ellipsoid 0 30 160
       = Some (x,
               _a1 StubExact flat_ellipsoid * _k0 StubExact flat_ellipsoid
               * PI * IZR (if signbit (LatFix RefMath 30)
                           then (-1)%Z else 1%Z) - y,
               AngNormalize RefMath
                 ((hd - g) * IZR (if signbit (LatFix RefMath 30)
                                  then (-1)%Z else 1%Z)), k).
Proof.
  apply (X19_forward_back_side_reflection RefMath StubExact Order6
           flat_ellipsoid 0 30 20 160).
  - apply series_engine_exact.
  - change (LatFix RefMath 30) with (ref_LatFix 30).
    rewrite ref_LatFix_id by (unfold qd; lra). lra.
  - change (AngDiff RefMath 0 20) with (ref_AngDiff 0 20).
    rewrite ref_AngDiff_small by (unfold hd; lra). unfold qd. lra.
  - change (AngDiff RefMath 0 160) with (ref_AngDiff 0 160).
    change (AngDiff RefMath 0 20) with (ref_AngDiff 0 20).
    rewrite !ref_AngDiff_small by (unfold hd; lra). unfold hd. ring.
Defined.

(** X20.  [Reverse] treats a point whose scaled northing exceeds pi/2 as
    the reflection of a point below it: for a scaled northing in
    (0, pi/2), the point with the northing a1 k0 pi - y has the same
    latitude and scale as the point with the northing y, and its
    longitude and convergence are built from 180 minus the (unsigned)
    longitude difference and convergence of that point. *)
Theorem X20_reverse_back_side_reflection :
  forall (M : MathLib) (X : ExactEngine) (ord : Order)
         (tm : TransverseMercator X) (lon0 x y : R),
    _exact X tm = false ->
    _a1 X tm * _k0 X tm <> 0 ->
    0 < y / (_a1 X tm * _k0 X tm) < PI / 2 ->
    let e := IZR (if signbit (x / (_a1 X tm * _k0 X tm))
                  then (-1)%Z else 1%Z) in
    exists lat l g k,
      Reverse M X ord tm lon0 x y
      = Some (lat, AngNormalize M (l * e + lon0),
              AngNormalize M (g * e), k)
      /\ Reverse M X ord tm lon0 x (_a1 X tm * _k0 X tm * PI - y)
         = Some (lat, AngNormalize M ((hd - l) * e + lon0),
                 AngNormalize M ((hd - g) * e), k).
Proof.
  intros M X ord tm lon0 x y Hex Hnz Hy.
  apply Reverse_backside_reflection; assumption.
Qed.

Lemma X20_reverse_back_side_reflection_witness :
  exists lat l g k,
    Reverse RefMath StubExact Order6 unit_sphere 0 2 1
    = Some (lat,
            AngNormalize RefMath
              (l * IZR (if signbit (2 / (_a1 StubExact unit_sphere
                                         * _k0 StubExact unit_sphere))
                        then (-1)%Z else 1%Z) + 0),
            AngNormalize RefMath
              (g * IZR (if signbit (2 / (_a1 StubExact unit_sphere
                                         * _k0 StubExact unit_sphere))
                        then (-1)%Z else 1%Z)), k)
    /\ Reverse RefMath StubExact Order6 unit_sphere 0 2
         (_a1 StubExact unit_sphere * _k0 StubExact unit_sphere * PI - 1)
       = Some (lat,
               AngNormalize RefMath
                 ((hd - l)
                  * IZR (if signbit (2 / (_a1 StubExact unit_sphere
                                          * _k0 StubExact unit_sphere))
                         then (-1)%Z else 1%Z) + 0),
               AngNormalize RefMath
                 ((hd - g)
                  * IZR (if signbit (2 / (_a1 StubExact unit_sphere
                                          * _k0 StubExact unit_sphere))
                         then (-1)%Z else 1%Z)), k).
Proof.
  destruct unit_sphere_a1_k0 as [Ha1 Hk0].
  apply (X20_reverse_back_side_reflection RefMath StubExact Order6
           unit_sphere 0 2 1).
  - apply series_engine_exact.
  - rewrite Ha1, Hk0. lra.
  - rewrite Ha1, Hk0. pose proof PI2_1 as Hpi.
    replace (1 / (1 * 1)) with 1 by field. lra.
Defined.

(* ------------------------------------------------------------------ *)
(** ** The round trip (C1)                                             *)
(* ------------------------------------------------------------------ *)






(** [Reverse] after [Forward] at a point where the reverted series
    inverts the direct one. *)
Section RoundTripSeries.

Variable M : MathLib.
Variable X : ExactEngine.
Variable ord : Order.
Variable tm : TransverseMercator X.

Hypothesis series_engine_used : _exact X tm = false.
Hypothesis positive_scale : 0 < _a1 X tm * _k0 X tm.


Hypothesis LatFix_identity :
  forall x, - qd <= x <= qd -> LatFix M x = x.




End RoundTripSeries.




(** *** A point that is not reproduced *)








Section Equator.

Variable M : MathLib.
Variable X : ExactEngine.
Variable ord : Order.
Variable tm : TransverseMercator X.

Hypothesis series_engine_used : _exact X tm = false.

Let N : nat := Z.to_nat (maxpow_ ord).


End Equator.


